(** * batch_rename.py: a shallow embedding and its verified properties

    The development follows the layout of [src/batch_rename.py]:
    text helpers and [sanitize_filename], the [pathlib] operations the
    script relies on, the file-system state, [get_exif_datetime],
    [unique_target], template expansion ([str.format_map]), and finally
    the two modes of [main] (undo, and plan/apply).

    Python [str] values are sequences of Unicode code points; they are
    modelled as [list N]. *)

From Stdlib Require Import ZArith NArith Ascii String List Lia Bool.
From Stdlib Require Import Decimal DecimalString DecimalZ.
From stdpp Require Import base option list gmap sets sorting.
Import ListNotations.

Local Open Scope N_scope.

(** ** Text *)

Module Text.

(** A Python string: its code points, in order. *)
Definition str := list N.

(** Code points of an ASCII literal, for readable constants. *)
Definition u (s : string) : str :=
  map N_of_ascii (list_ascii_of_string s).
Arguments u s%_string.

(** [a in b] for strings: [a] occurs as a contiguous substring of [b]. *)
Fixpoint is_prefix (a b : str) : bool :=
  match a, b with
  | [], _ => true
  | x :: a', y :: b' => (x =? y) && is_prefix a' b'
  | _ :: _, [] => false
  end.

Fixpoint contains (a b : str) : bool :=
  is_prefix a b ||
  match b with
  | [] => false
  | _ :: b' => contains a b'
  end.

Fixpoint drop_while (f : N → bool) (s : str) : str :=
  match s with
  | [] => []
  | c :: r => if f c then drop_while f r else s
  end.

(** [str.lstrip(chars)] and [str.rstrip(chars)] for a character class. *)
Definition lstrip_by (f : N → bool) (s : str) : str := drop_while f s.
Definition rstrip_by (f : N → bool) (s : str) : str :=
  rev (drop_while f (rev s)).

(** The characters [str.strip()] removes: CPython's [Py_UNICODE_ISSPACE]. *)
Definition is_space (c : N) : bool :=
  ((9 <=? c) && (c <=? 13)) || ((28 <=? c) && (c <=? 32))
  || (c =? 133) || (c =? 160) || (c =? 5760)
  || ((8192 <=? c) && (c <=? 8202))
  || (c =? 8232) || (c =? 8233) || (c =? 8239) || (c =? 8287)
  || (c =? 12288).

Definition strip (s : str) : str := lstrip_by is_space (rstrip_by is_space s).

(** [str(i)] and [f"{i}"] for a Python [int]. *)
Definition str_of_Z (z : Z) : str :=
  u (NilEmpty.string_of_int (Z.to_int z)).

Definition underscore : N := 95.
Definition dot : N := 46.

End Text.
Import Text.

(** ** [sanitize_filename] *)

(** [INVALID_CHARS_RE]: a one-character class holding the backslash, the
    slash, the colon, the star, the question mark, the double quote, the
    angle brackets, the bar and the control characters 0x00-0x1f. *)
Definition INVALID_CHARS (c : N) : bool :=
  (c =? 92) || (c =? 47) || (c =? 58) || (c =? 42) || (c =? 63)
  || (c =? 34) || (c =? 60) || (c =? 62) || (c =? 124) || (c <=? 31).

(** [INVALID_CHARS_RE.sub('_', name)] *)
Definition sub_invalid (name : str) : str :=
  map (fun c => if INVALID_CHARS c then underscore else c) name.

Definition sanitize_filename (name : str) : str :=
  let name := sub_invalid name in
  let name := strip name in
  match name with
  | [] => [underscore]
  | _ => name
  end.

(** *** Lemmas on stripping *)

Section Strip.
Variable f : N → bool.

Lemma drop_while_idem s : drop_while f (drop_while f s) = drop_while f s.
Proof.
  induction s as [|c r IH]; simpl; [done|].
  destruct (f c) eqn:E; [done|]. simpl. by rewrite E.
Qed.

Lemma drop_while_suffix s : ∃ k, s = k ++ drop_while f s.
Proof.
  induction s as [|c r [k IH]]; simpl.
  - by exists [].
  - destruct (f c).
    + exists (c :: k). simpl. by f_equal.
    + by exists [].
Qed.

Lemma drop_while_head s c r : drop_while f s = c :: r → f c = false.
Proof.
  induction s as [|a s IH]; simpl; [done|].
  destruct (f a) eqn:E; [done|]. by intros [= <- <-].
Qed.

Lemma drop_while_fixed c r : f c = false → drop_while f (c :: r) = c :: r.
Proof. intros H. simpl. by rewrite H. Qed.

Lemma Forall_drop_while (P : N → Prop) s :
  Forall P s → Forall P (drop_while f s).
Proof.
  induction 1 as [|c r Hc Hr IH]; simpl; [constructor|].
  destruct (f c); [done|]. by constructor.
Qed.

(** A string is trimmed when neither end is in the class. *)
Definition trimmed (s : str) : Prop :=
  drop_while f s = s ∧ drop_while f (rev s) = rev s.

Lemma trimmed_fixed s : trimmed s → lstrip_by f (rstrip_by f s) = s.
Proof.
  intros [Hl Hr]. unfold lstrip_by, rstrip_by.
  by rewrite Hr, rev_involutive.
Qed.

Lemma drop_while_rev_keeps_end s :
  drop_while f (rev s) = rev s →
  drop_while f (rev (drop_while f s)) = rev (drop_while f s).
Proof.
  intros H.
  destruct (drop_while f s) as [|c r] eqn:E; [done|].
  destruct (drop_while_suffix s) as [k Hk]. rewrite E in Hk.
  subst s. rewrite rev_app_distr in H.
  destruct (rev (c :: r)) as [|x t] eqn:Er.
  - apply (f_equal (@length N)) in Er.
    rewrite length_rev in Er. simpl in Er. lia.
  - simpl in H. destruct (f x) eqn:Ex.
    + exfalso. apply (f_equal (@length N)) in H.
      destruct (drop_while_suffix (t ++ rev k)) as [k' Hk'].
      rewrite Hk' in H at 2. simpl in H.
      rewrite length_app in H. lia.
    + simpl. by rewrite Ex.
Qed.

Lemma strip_by_trimmed s : trimmed (lstrip_by f (rstrip_by f s)).
Proof.
  unfold lstrip_by, rstrip_by, trimmed. split.
  - apply drop_while_idem.
  - apply drop_while_rev_keeps_end.
    rewrite rev_involutive. apply drop_while_idem.
Qed.
End Strip.

Lemma strip_idem s : strip (strip s) = strip s.
Proof. apply trimmed_fixed, strip_by_trimmed. Qed.

Lemma Forall_strip (P : N → Prop) s : Forall P s → Forall P (strip s).
Proof.
  intros H. unfold strip, lstrip_by, rstrip_by.
  apply Forall_drop_while, Forall_rev, Forall_drop_while, Forall_rev, H.
Qed.

(** *** Lemmas on the substitution *)

Lemma underscore_legal : INVALID_CHARS underscore = false.
Proof. reflexivity. Qed.

Lemma sub_invalid_legal s :
  Forall (fun c => INVALID_CHARS c = false) (sub_invalid s).
Proof.
  unfold sub_invalid. apply Forall_map, Forall_forall. intros c _. simpl.
  destruct (INVALID_CHARS c) eqn:E; [apply underscore_legal | exact E].
Qed.

Lemma sub_invalid_fixed s :
  Forall (fun c => INVALID_CHARS c = false) s → sub_invalid s = s.
Proof.
  unfold sub_invalid. induction 1 as [|c r Hc _ IH]; simpl; [done|].
  by rewrite Hc, IH.
Qed.

Lemma sanitize_legal s :
  Forall (fun c => INVALID_CHARS c = false) (sanitize_filename s).
Proof.
  unfold sanitize_filename.
  pose proof (Forall_strip _ _ (sub_invalid_legal s)) as H.
  destruct (strip (sub_invalid s)); [|exact H].
  constructor; [apply underscore_legal | constructor].
Qed.

Lemma sanitize_nonempty s : sanitize_filename s ≠ [].
Proof.
  unfold sanitize_filename. by destruct (strip (sub_invalid s)).
Qed.

Lemma sanitize_fixed s :
  Forall (fun c => INVALID_CHARS c = false) s → strip s = s → s ≠ [] →
  sanitize_filename s = s.
Proof.
  intros Hl Hs Hn. unfold sanitize_filename.
  rewrite (sub_invalid_fixed _ Hl), Hs. by destruct s.
Qed.


(** ** [pathlib] *)

(** A pure path as [pathlib] keeps it (POSIX flavour): the anchor (empty
    for a relative path) and the components below it.  Components hold no
    separator.  [str(p)] and [Path(s)] are inverse to each other on such
    paths, so the records of the rename map hold the paths themselves. *)
Record Path := mkPath { anchor : str; parts : list str }.

#[global] Instance Path_eq_dec : EqDecision Path.
Proof. solve_decision. Defined.

#[global] Instance Path_countable : Countable Path.
Proof.
  apply (inj_countable' (fun p => (anchor p, parts p))
                        (fun q => mkPath q.1 q.2)).
  by intros [].
Defined.

Module Pathlib.

(** [s.rfind(c)]: index of the last occurrence. *)
Fixpoint rfind (c : N) (s : str) : option nat :=
  match s with
  | [] => None
  | x :: r =>
      match rfind c r with
      | Some i => Some (S i)
      | None => if x =? c then Some 0%nat else None
      end
  end.

(** [PurePath.name]: the final component, empty when there is none. *)
Definition name (p : Path) : str := List.last (parts p) [].

(** [PurePath.parent] *)
Definition parent (p : Path) : Path :=
  mkPath (anchor p) (removelast (parts p)).

(** The index at which [PurePath.suffix] and [PurePath.stem] cut the name
    (CPython 3.4 to 3.13): the last dot, unless it is the first or the last
    character. *)
Definition suffix_index (n : str) : option nat :=
  match rfind dot n with
  | Some i =>
      if (0 <? i)%nat && (i <? length n - 1)%nat then Some i else None
  | None => None
  end.

Definition suffix_of (n : str) : str :=
  match suffix_index n with Some i => drop i n | None => [] end.

Definition stem_of (n : str) : str :=
  match suffix_index n with Some i => take i n | None => n end.

Definition suffix (p : Path) : str := suffix_of (name p).
Definition stem (p : Path) : str := stem_of (name p).

(** [p / s] for a single segment [s] free of separators, which is how the
    script uses it: an empty or dot segment is dropped, any other one is
    appended. *)
Definition joinpath (p : Path) (s : str) : Path :=
  if bool_decide (s = [] ∨ s = [dot]) then p
  else mkPath (anchor p) (parts p ++ [s]).

End Pathlib.
Import Pathlib.

(** *** Lemmas on names, stems and suffixes *)

Lemma rfind_None c s : rfind c s = None ↔ Forall (fun x => x ≠ c) s.
Proof.
  induction s as [|x r IH]; simpl.
  - split; [constructor|done].
  - destruct (rfind c r) as [i|] eqn:E.
    + split; [done|]. intros H. inversion H; subst.
      destruct IH as [_ IH]. by specialize (IH ltac:(assumption)).
    + destruct (N.eqb_spec x c) as [->|Hne].
      * split; [done|]. intros H. by inversion H.
      * split; [|done]. intros _. constructor; [done|]. by apply IH.
Qed.

Lemma rfind_lt c s i : rfind c s = Some i → (i < length s)%nat.
Proof.
  revert i. induction s as [|x r IH]; simpl; intros i; [done|].
  destruct (rfind c r) as [j|].
  - intros [= <-]. specialize (IH j eq_refl). lia.
  - destruct (x =? c); [|done]. intros [= <-]. lia.
Qed.

Lemma rfind_app_nodot c a b :
  Forall (fun x => x ≠ c) b → rfind c (a ++ b) = rfind c a.
Proof.
  intros Hb. induction a as [|x r IH]; simpl.
  - by apply rfind_None.
  - by rewrite IH.
Qed.

Lemma rfind_app_at c a b :
  Forall (fun x => x ≠ c) b → rfind c (a ++ c :: b) = Some (length a).
Proof.
  intros Hb. induction a as [|x r IH]; simpl.
  - apply rfind_None in Hb. rewrite Hb. by rewrite N.eqb_refl.
  - by rewrite IH.
Qed.

Lemma rfind_drop c s i :
  rfind c s = Some i →
  ∃ t, drop i s = c :: t ∧ Forall (fun x => x ≠ c) t.
Proof.
  revert i. induction s as [|x r IH]; simpl; intros i; [done|].
  destruct (rfind c r) as [j|] eqn:E.
  - intros [= <-]. simpl. by apply IH.
  - destruct (N.eqb_spec x c) as [->|]; [|done]. intros [= <-].
    simpl. exists r. split; [done|]. by apply rfind_None.
Qed.

(** A name is its stem followed by its suffix. *)
Lemma stem_suffix n : stem_of n ++ suffix_of n = n.
Proof.
  unfold stem_of, suffix_of.
  destruct (suffix_index n); [apply take_drop | apply app_nil_r].
Qed.

(** A non-empty suffix is a dot followed by at least one character, none
    of them a dot, and the stem before it is non-empty. *)
Lemma suffix_shape n :
  suffix_of n ≠ [] →
  ∃ t, suffix_of n = dot :: t ∧ t ≠ [] ∧ Forall (fun x => x ≠ dot) t
       ∧ stem_of n ≠ [].
Proof.
  unfold suffix_of, stem_of, suffix_index.
  destruct (rfind dot n) as [i|] eqn:E; [|done].
  destruct ((0 <? i)%nat && (i <? length n - 1)%nat) eqn:C; [|done].
  intros _. apply andb_prop in C as [C1 C2].
  apply Nat.ltb_lt in C1, C2.
  destruct (rfind_drop _ _ _ E) as (t & Ht & Hnd).
  exists t. repeat split; [done| |done|].
  - intros ->. apply (f_equal (@length N)) in Ht.
    rewrite length_drop in Ht. simpl in Ht. lia.
  - intros Hs. apply (f_equal (@length N)) in Hs.
    rewrite length_take in Hs. simpl in Hs. lia.
Qed.

(** Appending a dot-free tail between a stem and a non-empty suffix keeps
    the suffix. *)
Lemma suffix_index_insert s m t :
  s ≠ [] → t ≠ [] → Forall (fun x => x ≠ dot) t →
  suffix_index ((s ++ m) ++ dot :: t) = Some (length (s ++ m)).
Proof.
  intros Hs Ht Hnd. unfold suffix_index.
  rewrite (rfind_app_at _ _ _ Hnd).
  assert (0 < length (s ++ m))%nat as H0.
  { rewrite length_app. destruct s; [done|]. simpl. lia. }
  assert (length (s ++ m) < length ((s ++ m) ++ dot :: t) - 1)%nat as H1.
  { rewrite (length_app (s ++ m)). destruct t; [done|]. simpl. lia. }
  apply Nat.ltb_lt in H0, H1. by rewrite H0, H1.
Qed.

(** A name without suffix that does not end in a dot keeps having no
    suffix when a non-empty dot-free tail is appended. *)
Lemma suffix_index_append n m :
  suffix_index n = None → List.last n 0 ≠ dot →
  Forall (fun x => x ≠ dot) m →
  suffix_index (n ++ m) = None.
Proof.
  intros Hn Hl Hm. unfold suffix_index in *.
  rewrite (rfind_app_nodot _ _ _ Hm).
  destruct (rfind dot n) as [i|] eqn:E; [|done].
  destruct (Nat.ltb_spec 0 i) as [Hpos|]; [|done]. simpl in *.
  destruct (Nat.ltb_spec i (length n - 1)) as [|Hge]; [done|].
  exfalso. apply Hl.
  pose proof (rfind_lt _ _ _ E) as Hlt.
  destruct (rfind_drop _ _ _ E) as (t & Ht & _).
  assert (t = []) as ->.
  { apply (f_equal (@length N)) in Ht. rewrite length_drop in Ht.
    simpl in Ht. destruct t; [done|]. simpl in Ht. lia. }
  rewrite <- (take_drop i n), Ht. by rewrite last_last.
Qed.

(** *** Decimal rendering of integers *)

Lemma u_inj a b : u a = u b → a = b.
Proof.
  unfold u. intros H.
  rewrite <- (string_of_list_ascii_of_string a),
          <- (string_of_list_ascii_of_string b).
  f_equal. revert H.
  generalize (list_ascii_of_string a) (list_ascii_of_string b).
  induction l as [|x l IH]; intros [|y l']; simpl; try done.
  intros [= Hx Hl]. f_equal; [|by apply IH].
  by rewrite <- (ascii_N_embedding x), <- (ascii_N_embedding y), Hx.
Qed.

Lemma str_of_Z_inj i j : str_of_Z i = str_of_Z j → i = j.
Proof.
  intros H%u_inj. apply DecimalZ.to_int_inj.
  pose proof (NilEmpty.isi (Z.to_int i)) as Hi.
  pose proof (NilEmpty.isi (Z.to_int j)) as Hj.
  rewrite H in Hi. congruence.
Qed.

Lemma string_of_uint_nodot d :
  Forall (fun x => x ≠ dot) (u (NilEmpty.string_of_uint d)).
Proof.
  induction d; simpl; [constructor | constructor; [done|exact IHd] ..].
Qed.

Lemma str_of_Z_nodot z : Forall (fun x => x ≠ dot) (str_of_Z z).
Proof.
  unfold str_of_Z. destruct (Z.to_int z) as [d|d]; simpl.
  - apply string_of_uint_nodot.
  - constructor; [done|]. apply string_of_uint_nodot.
Qed.

(** ** The file system *)

(** A naive local date-time, as a count of seconds. *)
Record datetime := Datetime { seconds : Z }.

(** A value stored under an EXIF tag: text, or any other Python object. *)
Inductive ExifVal := EStr (s : str) | EOther.

(** What Pillow finds in a file. *)
Inductive ImageData :=
| NotAnImage                              (* [Image.open] raises *)
| NoExifMethod                            (* [img._getexif] raises *)
| Exif (tags : option (gmap N ExifVal)).  (* [None] or a dict *)

Record Node := mkNode {
  is_dir : bool;
  st_mtime : Z;
  image : ImageData;
  (** the parsed JSON content when the file is a saved rename map *)
  saved_map : option (list (Path * Path));
}.

(** The part of the outside world the script touches.  The operating
    system may refuse a rename or a write for reasons the script does not
    see (permissions, busy files): [rename_refused] and [write_refused] say
    when. *)
Record World := mkWorld {
  nodes : gmap Path Node;
  rename_refused : Path → Path → bool;
  write_refused : Path → bool;
  PIL_AVAILABLE : bool;
}.

(** Exceptions deriving from [Exception]. *)
Inductive exception :=
| KeyError (key : str)
| ValueError
| OSError
| OtherError.

(** The result of a call that may raise. *)
Inductive result (A : Type) :=
| Ok (a : A)
| Raise (e : exception).
Arguments Ok {A} a.
Arguments Raise {A} e.

Definition bind {A B} (r : result A) (k : A → result B) : result B :=
  match r with Ok a => k a | Raise e => Raise e end.

(** [try: body except Exception: handler] *)
Definition try_except {A} (body : result A) (handler : exception → result A)
  : result A :=
  match body with Ok a => Ok a | Raise e => handler e end.

#[global] Instance result_ret : MRet result := @Ok.
#[global] Instance result_bind : MBind result := fun A B k r => bind r k.

Module FS.

Definition with_nodes (w : World) (m : gmap Path Node) : World :=
  mkWorld m (rename_refused w) (write_refused w) (PIL_AVAILABLE w).

(** [Path.exists] *)
Definition exists_ (w : World) (p : Path) : bool :=
  match nodes w !! p with Some _ => true | None => false end.

(** [Path.stat] *)
Definition stat (w : World) (p : Path) : result Node :=
  match nodes w !! p with Some nd => Ok nd | None => Raise OSError end.

(** [Path.rename]: the source must exist and the system must not refuse;
    the entry then moves to the destination (replacing what was there, as
    POSIX does). *)
Definition rename (w : World) (src dst : Path) : result World :=
  match nodes w !! src with
  | None => Raise OSError
  | Some nd =>
      if rename_refused w src dst then Raise OSError
      else Ok (with_nodes w (<[dst := nd]> (delete src (nodes w))))
  end.

(** [open(path, 'w')] followed by [json.dump(ops, f)] *)
Definition write_map (w : World) (path : Path) (ops : list (Path * Path))
  : result World :=
  if write_refused w path then Raise OSError
  else Ok (with_nodes w
             (<[path := mkNode false 0 NotAnImage (Some ops)]> (nodes w))).

(** [datetime.fromtimestamp] *)
Definition fromtimestamp (t : Z) : datetime := Datetime t.

End FS.

(** ** [unique_target] *)

(** [parent / f"{stem}_{i}{suffix}"] *)
Definition candidate (path : Path) (i : Z) : Path :=
  joinpath (parent path)
           (stem path ++ [underscore] ++ str_of_Z i ++ suffix path).

(** The [while True] loop, started at [i]; [fuel] bounds the number of
    probes. *)
Fixpoint probe (w : World) (path : Path) (fuel : nat) (i : Z) : option Path :=
  match fuel with
  | O => None
  | S fuel' =>
      let c := candidate path i in
      if FS.exists_ w c then probe w path fuel' (i + 1)%Z else Some c
  end.

Definition unique_target_fuel (fuel : nat) (w : World) (path : Path)
  : option Path :=
  if FS.exists_ w path then probe w path fuel 1%Z else Some path.

(** The loop stops within [size (nodes w) + 1] probes
    ([unique_target_terminates] below), so that much fuel is the function
    itself. *)
Definition unique_target (w : World) (path : Path) : Path :=
  default path (unique_target_fuel (S (size (nodes w))) w path).

(** *** Lemmas *)

Lemma candidate_parts path i :
  candidate path i =
  mkPath (anchor path)
         (removelast (parts path)
          ++ [stem path ++ [underscore] ++ str_of_Z i ++ suffix path]).
Proof.
  unfold candidate, joinpath. rewrite bool_decide_eq_false_2; [done|].
  intros [H|H]; destruct (stem path) as [|a s]; simpl in H; try done.
  injection H as _ H. by destruct s.
Qed.

Lemma candidate_inj path i j : candidate path i = candidate path j → i = j.
Proof.
  rewrite !candidate_parts. intros [= H].
  apply app_inv_head in H. injection H as H.
  apply app_inv_head in H. simpl in H. injection H as H.
  apply app_inv_tail in H. by apply str_of_Z_inj.
Qed.

Lemma candidate_parent path i : parent (candidate path i) = parent path.
Proof.
  rewrite candidate_parts. unfold parent. simpl. by rewrite removelast_last.
Qed.

Lemma candidate_name path i :
  name (candidate path i)
  = stem path ++ [underscore] ++ str_of_Z i ++ suffix path.
Proof. rewrite candidate_parts. unfold name. simpl. apply last_last. Qed.

Lemma probe_None w path fuel i :
  probe w path fuel i = None →
  ∀ k, (k < fuel)%nat → FS.exists_ w (candidate path (i + Z.of_nat k)) = true.
Proof.
  revert i. induction fuel as [|f IH]; intros i H k Hk; [lia|].
  simpl in H. destruct (FS.exists_ w (candidate path i)) eqn:E; [|done].
  destruct k as [|k].
  - by rewrite Z.add_0_r.
  - replace (i + Z.of_nat (S k))%Z with ((i + 1) + Z.of_nat k)%Z by lia.
    apply IH; [done|lia].
Qed.

Lemma probe_Some w path fuel i c :
  probe w path fuel i = Some c →
  ∃ k : nat, c = candidate path (i + Z.of_nat k)
    ∧ FS.exists_ w c = false
    ∧ ∀ j : nat, (j < k)%nat →
        FS.exists_ w (candidate path (i + Z.of_nat j)) = true.
Proof.
  revert i. induction fuel as [|f IH]; intros i H; [done|].
  simpl in H. destruct (FS.exists_ w (candidate path i)) eqn:E.
  - destruct (IH _ H) as (k & -> & Hfree & Hbusy).
    exists (S k). split; [f_equal; lia|]. split; [done|].
    intros [|j] Hj.
    + by rewrite Z.add_0_r.
    + replace (i + Z.of_nat (S j))%Z with ((i + 1) + Z.of_nat j)%Z by lia.
      apply Hbusy. lia.
  - injection H as <-. exists 0%nat. rewrite Z.add_0_r.
    split; [done|]. split; [done|]. intros j Hj. lia.
Qed.

(** Termination: a finite directory tree cannot hold all of
    [size + 1] distinct candidates. *)
Lemma probe_enough_fuel w path i :
  is_Some (probe w path (S (size (nodes w))) i).
Proof.
  destruct (probe w path (S (size (nodes w))) i) as [c|] eqn:E; [by eexists|].
  exfalso.
  pose proof (probe_None _ _ _ _ E) as Hall.
  set (n := S (size (nodes w))) in *.
  set (l := (fun k => candidate path (i + Z.of_nat k)) <$> seq 0 n).
  assert (NoDup l) as Hnd.
  { apply NoDup_fmap_2; [|apply NoDup_seq].
    intros a b Hab%candidate_inj. lia. }
  assert (list_to_set l ⊆ dom (nodes w)) as Hsub.
  { intros c Hc. apply elem_of_list_to_set in Hc.
    apply list_elem_of_fmap in Hc as (k & -> & Hk).
    apply elem_of_seq in Hk. specialize (Hall k ltac:(lia)).
    unfold FS.exists_ in Hall. apply elem_of_dom.
    destruct (nodes w !! candidate path (i + Z.of_nat k)); [by eexists|done]. }
  apply subseteq_size in Hsub.
  rewrite size_list_to_set in Hsub by done.
  rewrite size_dom in Hsub. unfold l in Hsub.
  rewrite length_fmap, length_seq in Hsub. unfold n in Hsub. lia.
Qed.

Lemma unique_target_terminates w path :
  is_Some (unique_target_fuel (S (size (nodes w))) w path).
Proof.
  unfold unique_target_fuel.
  destruct (FS.exists_ w path); [apply probe_enough_fuel | by eexists].
Qed.

(** What the loop returns. *)
Lemma unique_target_spec w path :
  (FS.exists_ w path = false ∧ unique_target w path = path)
  ∨ (FS.exists_ w path = true ∧
     ∃ k : nat, unique_target w path = candidate path (1 + Z.of_nat k)
       ∧ FS.exists_ w (candidate path (1 + Z.of_nat k)) = false
       ∧ ∀ j : nat, (j < k)%nat →
           FS.exists_ w (candidate path (1 + Z.of_nat j)) = true).
Proof.
  unfold unique_target, unique_target_fuel.
  destruct (FS.exists_ w path) eqn:E; [right|left; done].
  split; [done|].
  destruct (probe_enough_fuel w path 1) as [c Hc]. rewrite Hc. simpl.
  destruct (probe_Some _ _ _ _ _ Hc) as (k & -> & Hfree & Hbusy).
  by exists k.
Qed.

(** The returned path never exists. *)
Lemma unique_target_fresh w path : FS.exists_ w (unique_target w path) = false.
Proof.
  destruct (unique_target_spec w path) as [[H ->]|[_ (k & -> & H & _)]]; done.
Qed.

Lemma suffix_nil_index n : suffix_of n = [] → suffix_index n = None.
Proof.
  intros H. destruct (suffix_index n) as [i|] eqn:E; [|done].
  exfalso. unfold suffix_of in H. rewrite E in H.
  unfold suffix_index in E. destruct (rfind dot n) as [j|] eqn:Ej; [|done].
  destruct ((0 <? j)%nat && (j <? length n - 1)%nat) eqn:C; [|done].
  injection E as ->. apply andb_prop in C as [_ C]. apply Nat.ltb_lt in C.
  apply (f_equal (@length N)) in H. rewrite length_drop in H. simpl in H. lia.
Qed.

(** The name of a candidate splits into the lengthened stem and the
    original suffix, provided the original name does not end in a dot. *)
Lemma candidate_stem_suffix path i :
  List.last (name path) 0 ≠ dot →
  stem (candidate path i) = stem path ++ [underscore] ++ str_of_Z i
  ∧ suffix (candidate path i) = suffix path.
Proof.
  intros Hlast. unfold stem at 1, suffix at 1. rewrite candidate_name.
  unfold stem, suffix, stem_of, suffix_of.
  assert (Forall (fun x => x ≠ dot) ([underscore] ++ str_of_Z i)) as Hm.
  { constructor; [discriminate|apply str_of_Z_nodot]. }
  destruct (decide (suffix_of (name path) = [])) as [Hnil|Hne].
  - pose proof (suffix_nil_index _ Hnil) as Hidx.
    unfold suffix_of in Hnil. rewrite Hidx in *.
    rewrite app_nil_r.
    replace (name path ++ [underscore] ++ str_of_Z i)
      with (name path ++ ([underscore] ++ str_of_Z i)) by done.
    by rewrite (suffix_index_append _ _ Hidx Hlast Hm).
  - destruct (suffix_shape _ Hne) as (t & Ht & Htne & Hnd & Hstem).
    unfold suffix_of, stem_of in Ht, Hstem.
    destruct (suffix_index (name path)) as [k|] eqn:Hidx; [|done].
    rewrite Ht.
    replace (take k (name path) ++ [underscore] ++ str_of_Z i ++ dot :: t)
      with ((take k (name path) ++ ([underscore] ++ str_of_Z i)) ++ dot :: t)
      by (by rewrite <- !app_assoc).
    rewrite (suffix_index_insert _ _ _ Hstem Htne Hnd).
    split; [apply take_app_length | apply drop_app_length].
Qed.

(** ** Sample worlds for closed examples *)

Module Sample.

Definition file (mtime : Z) : Node := mkNode false mtime NotAnImage None.

(** A relative path below the current directory. *)
Definition rel (components : list string) : Path :=
  mkPath [] (u <$> components).

Definition world_of (l : list (Path * Node)) : World :=
  mkWorld (list_to_map l) (fun _ _ => false) (fun _ => false) false.

(** A world in which the system refuses to rename [locked]. *)
Definition world_locking (locked : Path) (l : list (Path * Node)) : World :=
  mkWorld (list_to_map l) (fun src _ => bool_decide (src = locked))
          (fun _ => false) false.

End Sample.

(** ** Properties of [unique_target] *)

(** C10, as stated, fails for a name that ends in a dot: [pathlib] gives
    the name no suffix, but gives one to the name with the counter
    appended. *)
Lemma unique_target_changes_suffix_of_dotted_name :
  let w := Sample.world_of [(Sample.rel ["foo."%string], Sample.file 0)] in
  let path := Sample.rel ["foo."%string] in
  suffix path = []
  ∧ unique_target w path = Sample.rel ["foo._1"%string]
  ∧ suffix (unique_target w path) = u "._1"
  ∧ ¬ (suffix (unique_target w path) = suffix path).
Proof. vm_compute. repeat split; discriminate. Qed.

(** C10 (amended). For a candidate whose name does not end in a dot, the
    resolver keeps the parent directory and the suffix; it returns the
    candidate itself when that does not exist, and otherwise the path whose
    stem is lengthened by an underscore and the smallest positive integer
    for which the path does not exist. *)
Theorem unique_target_keeps_parent_and_suffix (w : World) (path : Path) :
  List.last (name path) 0 ≠ dot →
  parent (unique_target w path) = parent path
  ∧ suffix (unique_target w path) = suffix path
  ∧ FS.exists_ w (unique_target w path) = false
  ∧ ((FS.exists_ w path = false ∧ unique_target w path = path)
     ∨ (FS.exists_ w path = true ∧
        ∃ i : Z, (1 ≤ i)%Z
          ∧ unique_target w path = candidate path i
          ∧ stem (unique_target w path)
            = stem path ++ [underscore] ++ str_of_Z i
          ∧ ∀ j : Z, (1 ≤ j < i)%Z →
              FS.exists_ w (candidate path j) = true)).
Proof.
  intros Hlast.
  destruct (unique_target_spec w path)
    as [[Hno Heq]|[Hyes (k & Heq & Hfree & Hbusy)]].
  - rewrite Heq. repeat split; [done|]. by left.
  - destruct (candidate_stem_suffix path (1 + Z.of_nat k) Hlast) as [Hst Hsu].
    rewrite Heq. split; [apply candidate_parent|].
    split; [done|]. split; [done|]. right. split; [done|].
    exists (1 + Z.of_nat k)%Z. split; [lia|]. split; [done|].
    split; [done|]. intros j Hj.
    replace j with (1 + Z.of_nat (Z.to_nat (j - 1)))%Z by lia.
    apply Hbusy. lia.
Qed.

Lemma unique_target_keeps_parent_and_suffix_witness :
  let w := Sample.world_of [(Sample.rel ["d"%string; "pic_1.jpg"%string], Sample.file 0)] in
  let path := Sample.rel ["d"%string; "pic_1.jpg"%string] in
  List.last (name path) 0 ≠ dot
  ∧ unique_target w path = Sample.rel ["d"%string; "pic_1_1.jpg"%string]
  ∧ parent (unique_target w path) = parent path
  ∧ suffix (unique_target w path) = suffix path.
Proof.
  intros w path.
  assert (List.last (name path) 0 ≠ dot) as H by (vm_compute; discriminate).
  split; [exact H|]. split; [vm_compute; reflexivity|].
  pose proof (unique_target_keeps_parent_and_suffix w path H) as (Hp & Hs & _).
  split; [exact Hp | exact Hs].
Defined.

(** ** [str.format_map]

    The script expands the pattern with [pattern.format_map(mapping)].
    CPython reads the format string with a markup iterator that yields, one
    after the other, a run of literal text and the replacement field that
    follows it, and renders each field before it reads on.  The iterator is
    written here as an automaton over the characters of the string. *)

Module Format.

Definition brace_l : N := 123.
Definition brace_r : N := 125.
Definition bracket_l : N := 91.
Definition bracket_r : N := 93.
Definition colon : N := 58.
Definition bang : N := 33.

(** A replacement field [{arg_name accessors ! conversion : format_spec}].
    [arg_name] is the part of the field name before the first dot or
    bracket; [conversion] is 0 when there is none. *)
Record Field := mkField {
  arg_name : str;
  accessors : str;
  conversion : N;
  format_spec : str;
  needs_expanding : bool;
}.

Inductive Markup :=
| Literal (text : str)
| Replacement (f : Field).

Inductive phase :=
| Lit                                   (* in literal text *)
| Open                                  (* a left brace was just read *)
| Close                                 (* a right brace was just read *)
| Name (first rest : str)               (* in a field name *)
| Bracket (first rest : str)            (* inside the brackets of a name *)
| Conv (first rest : str)               (* the bang was just read *)
| ConvEnd (first rest : str) (conv : N) (* the conversion was just read *)
| Spec (first rest : str) (conv : N) (spec : str) (depth : nat) (expand : bool)
| Failed.                               (* ValueError: malformed string *)

Record scanner := mkScanner {
  items : list Markup;   (* what was yielded so far *)
  lit : str;             (* the literal text being read *)
  ph : phase;
}.

Definition init : scanner := mkScanner [] [] Lit.

Definition goto (sc : scanner) (p : phase) : scanner :=
  mkScanner (items sc) (lit sc) p.

Definition yield (sc : scanner) (f : Field) : scanner :=
  mkScanner (items sc ++ [Literal (lit sc); Replacement f]) [] Lit.

(** One character of a field name, outside brackets. *)
Definition name_step (sc : scanner) (first rest : str) (c : N) : scanner :=
  if c =? brace_l then goto sc Failed
  else if c =? bracket_l then goto sc (Bracket first (rest ++ [c]))
  else if c =? brace_r then yield sc (mkField first rest 0 [] false)
  else if c =? colon then goto sc (Spec first rest 0 [] 0 false)
  else if c =? bang then goto sc (Conv first rest)
  else match rest with
       | [] => if c =? dot then goto sc (Name first [c])
               else goto sc (Name (first ++ [c]) [])
       | _ => goto sc (Name first (rest ++ [c]))
       end.

Definition step (sc : scanner) (c : N) : scanner :=
  match ph sc with
  | Failed => sc
  | Lit =>
      if c =? brace_l then goto sc Open
      else if c =? brace_r then goto sc Close
      else mkScanner (items sc) (lit sc ++ [c]) Lit
  | Open =>
      if c =? brace_l then mkScanner (items sc) (lit sc ++ [c]) Lit
      else name_step sc [] [] c
  | Close =>
      if c =? brace_r then mkScanner (items sc) (lit sc ++ [c]) Lit
      else goto sc Failed
  | Name first rest => name_step sc first rest c
  | Bracket first rest =>
      if c =? bracket_r then goto sc (Name first (rest ++ [c]))
      else goto sc (Bracket first (rest ++ [c]))
  | Conv first rest => goto sc (ConvEnd first rest c)
  | ConvEnd first rest conv =>
      if c =? brace_r then yield sc (mkField first rest conv [] false)
      else if c =? colon then goto sc (Spec first rest conv [] 0 false)
      else goto sc Failed
  | Spec first rest conv spec depth expand =>
      if c =? brace_l then
        goto sc (Spec first rest conv (spec ++ [c]) (S depth) true)
      else if c =? brace_r then
        match depth with
        | O => yield sc (mkField first rest conv spec expand)
        | S d => goto sc (Spec first rest conv (spec ++ [c]) d expand)
        end
      else goto sc (Spec first rest conv (spec ++ [c]) depth expand)
  end.

Definition scan (sc : scanner) (s : str) : scanner := fold_left step s sc.

(** The items read before the end of the string or before the place at
    which the string is malformed, and the error raised there. *)
Definition tokenize (s : str) : list Markup * option exception :=
  let sc := scan init s in
  match ph sc with
  | Lit => (items sc ++ [Literal (lit sc)], None)
  | _ => (items sc, Some ValueError)
  end.

(** A value of the naming context. *)
Inductive Value :=
| VInt (z : Z)
| VStr (s : str)
| VDate (d : datetime).

(** The digits 0 to 9.  (CPython also reads the decimal digits of other
    scripts as an index; a field named with those raises [KeyError] here
    and [ValueError] there.) *)
Definition is_digit (c : N) : bool := (48 <=? c) && (c <=? 57).

(** An empty or numeric [arg_name] asks for a positional argument, which
    [format_map] does not have. *)
Definition positional (first : str) : bool := forallb is_digit first.

Section Render.

(** Attribute and index access, conversion and [format(obj, spec)] are
    Python built-ins: [resolve v accessors conversion] is the object a field
    designates once its value [v] is found, [format_obj obj spec] its
    rendering. *)
Context {PyObj : Type}.
Variable resolve : Value → str → N → result PyObj.
Variable format_obj : PyObj → str → result str.

Definition render_field (expand : str → result str)
    (mapping : gmap str Value) (f : Field) : result str :=
  if positional (arg_name f) then Raise ValueError
  else
    match mapping !! arg_name f with
    | None => Raise (KeyError (arg_name f))
    | Some v =>
        obj ← resolve v (accessors f) (conversion f);
        spec ← (if needs_expanding f then expand (format_spec f)
                else Ok (format_spec f));
        format_obj obj spec
    end.

Fixpoint render_items (expand : str → result str)
    (mapping : gmap str Value) (l : list Markup) : result str :=
  match l with
  | [] => Ok []
  | Literal text :: l' =>
      out ← render_items expand mapping l'; Ok (text ++ out)
  | Replacement f :: l' =>
      x ← render_field expand mapping f;
      out ← render_items expand mapping l'; Ok (x ++ out)
  end.

(** [build_string]: a format specification that holds fields is expanded
    with one level less; at level 0 the expansion is refused. *)
Fixpoint build_string (depth : nat) (mapping : gmap str Value)
    (pattern : str) : result str :=
  match depth with
  | O => Raise ValueError
  | S d =>
      out ← render_items (build_string d mapping) mapping
                         (tokenize pattern).1;
      match (tokenize pattern).2 with
      | Some e => Raise e
      | None => Ok out
      end
  end.

Definition format_map (pattern : str) (mapping : gmap str Value)
  : result str :=
  build_string 2 mapping pattern.

End Render.

(** The placeholder names a format string refers to, in reading order,
    those of nested format specifications included. *)
Fixpoint placeholders (depth : nat) (pattern : str) : list str :=
  match depth with
  | O => []
  | S d =>
      flat_map (fun it =>
                  match it with
                  | Literal _ => []
                  | Replacement f =>
                      arg_name f ::
                      (if needs_expanding f then placeholders d (format_spec f)
                       else [])
                  end)
               (tokenize pattern).1
  end.

End Format.
Import Format.

(** A renderer for closed examples.  It renders, as CPython does, integer
    and text placeholders that carry no accessor and no conversion, with an
    empty format specification or, for integers, a zero-padded width
    [0<width>d]; what lies outside this fragment is not modelled by it, and
    it raises there. *)
Module SampleRender.

Definition resolve (v : Value) (acc : str) (conv : N) : result Value :=
  match acc, conv with
  | [], 0 => Ok v
  | _, _ => Raise OtherError
  end.

Fixpoint digits_value (acc : nat) (s : str) : option nat :=
  match s with
  | [] => Some acc
  | c :: r =>
      if is_digit c then digits_value (10 * acc + N.to_nat (c - 48)) r
      else None
  end.

(** [format(z, '0<width>d')]: sign first, then zeros up to the width. *)
Definition zero_pad (z : Z) (width : nat) : str :=
  let d := str_of_Z (Z.abs z) in
  let sign := if (z <? 0)%Z then u "-" else [] in
  sign ++ replicate (width - length sign - length d) 48 ++ d.

Definition format_obj (v : Value) (spec : str) : result str :=
  match v, spec with
  | VInt z, [] => Ok (str_of_Z z)
  | VStr s, [] => Ok s
  | VInt z, 48 :: r =>
      match rev r with
      | 100 :: w =>
          match digits_value 0 (rev w) with
          | Some width => if bool_decide (w = []) then Raise ValueError
                          else Ok (zero_pad z width)
          | None => Raise ValueError
          end
      | _ => Raise ValueError
      end
  | _, _ => Raise ValueError
  end.

Definition format_map := Format.format_map resolve format_obj.

End SampleRender.

Example format_counter_padded :
  SampleRender.format_map (u "IMG_{counter:04d}")
    {[ u "counter" := VInt 3 ]} = Ok (u "IMG_0003").
Proof. vm_compute. reflexivity. Qed.

Example format_escaped_braces :
  SampleRender.format_map (u "{{ext}}_{orig}")
    {[ u "orig" := VStr (u "a"); u "ext" := VStr (u "jpg") ]}
  = Ok (u "{ext}_a").
Proof. vm_compute. reflexivity. Qed.

Example format_unknown_key :
  SampleRender.format_map (u "{unknown}_{counter}")
    {[ u "counter" := VInt 3 ]} = Raise (KeyError (u "unknown")).
Proof. vm_compute. reflexivity. Qed.

Example format_single_brace :
  SampleRender.format_map (u "a}b") ∅ = Raise ValueError.
Proof. vm_compute. reflexivity. Qed.

Example format_nested_spec :
  placeholders 2 (u "{counter:{width}}_{orig.x[{]}") =
  [u "counter"; u "width"; u "orig"].
Proof. vm_compute. reflexivity. Qed.

(** ** [get_exif_datetime] *)

Module Pillow.

(** [ExifTags.TAGS] read backwards, as [tag_map] has it. *)
Definition DateTimeOriginal : N := 36867.
Definition DateTime : N := 306.

(** [Image.open(path)]: raises unless the file is there and is an image. *)
Definition open (w : World) (path : Path) : result ImageData :=
  match nodes w !! path with
  | None => Raise OSError
  | Some nd =>
      match image nd with
      | NotAnImage => Raise OSError
      | img => Ok img
      end
  end.

(** [img._getexif()] *)
Definition getexif (img : ImageData) : result (option (gmap N ExifVal)) :=
  match img with
  | Exif tags => Ok tags
  | _ => Raise OtherError
  end.

End Pillow.

Section Engine.

(** [datetime.strptime(val, "%Y:%m:%d %H:%M:%S")] on text. *)
Variable strptime : str → result datetime.

Context {PyObj : Type}.
Variable resolve : Value → str → N → result PyObj.
Variable format_obj : PyObj → str → result str.

(** One turn of [for candidate in (...)]: [rest] is what the later turns
    and the final [return None] give. *)
Definition exif_candidate (exif : gmap N ExifVal) (tagid : N)
    (rest : result (option datetime)) : result (option datetime) :=
  match (if tagid =? 0 then None else exif !! tagid) with
  | Some val =>
      try_except
        (dt ← match val with
              | EStr s => strptime s
              | EOther => Raise OtherError
              end;
         Ok (Some dt))
        (fun _ => rest)
  | None => rest
  end.

Definition get_exif_datetime (w : World) (path : Path)
  : result (option datetime) :=
  if negb (PIL_AVAILABLE w) then Ok None
  else
    try_except
      (img ← Pillow.open w path;
       exif ← Pillow.getexif img;
       match exif with
       | None => Ok None
       | Some tags =>
           if bool_decide (dom tags = ∅) then Ok None
           else
             exif_candidate tags Pillow.DateTimeOriginal
               (exif_candidate tags Pillow.DateTime (Ok None))
       end)
      (fun _ => Ok None).

(** ** [main] *)

Record Args := mkArgs {
  arg_dir : Path;
  arg_pattern : str;
  arg_prefix : str;
  arg_suffix : str;
  arg_start : Z;
  arg_digits : Z;
  arg_exif_date : bool;
  arg_apply : bool;
  arg_map_file : option Path;
  arg_undo : option Path;
  arg_verbose : bool;
  (** [datetime.now().strftime('%Y%m%dT%H%M%S')] at the time of the run *)
  timestamp_str : str;
}.

(** What the script prints. *)
Inductive Msg :=
| MsgMapFileMissing (mapf : Path)
| MsgRevert (dst src : Path)
| MsgUndoFailed (dst src : Path) (e : exception)
| MsgUndoSkipped (dst src : Path)
| MsgUndoDone (n : nat)
| MsgNoFiles
| MsgUnknownPlaceholder (e : exception) (pattern : str)
| MsgFormatFailed (e : exception)
| MsgPlan (name_from name_to : str)
| MsgRenameFailed (src dst : Path) (e : exception)
| MsgFileFailed (p : Path) (e : exception)
| MsgMapSaved (map_file : Path)
| MsgMapSaveFailed (e : exception)
| MsgDryRun
| MsgCount (n : nat).

(** How the process ends: it returns from [main], calls [sys.exit], or
    dies of an exception nobody catches. *)
Inductive Outcome :=
| Returned
| Exited (code : Z)
| Uncaught (e : exception).

(** *** Undo mode *)

Record UndoState := mkUndoState {
  undo_world : World;
  reversed_ops : list (Path * Path);
  undo_out : list Msg;
}.

(** The body of [for item in data]. *)
Definition undo_item (verbose : bool) (st : UndoState) (item : Path * Path)
  : UndoState :=
  let src := item.1 in
  let dst := item.2 in
  let w := undo_world st in
  if FS.exists_ w dst && negb (FS.exists_ w src) then
    match FS.rename w dst src with
    | Ok w' =>
        mkUndoState w' (reversed_ops st ++ [(dst, src)])
          (undo_out st ++ (if verbose then [MsgRevert dst src] else []))
    | Raise e =>
        mkUndoState w (reversed_ops st)
          (undo_out st ++ [MsgUndoFailed dst src e])
    end
  else
    mkUndoState w (reversed_ops st) (undo_out st ++ [MsgUndoSkipped dst src]).

Definition undo_loop (verbose : bool) (st : UndoState)
    (data : list (Path * Path)) : UndoState :=
  fold_left (undo_item verbose) data st.

Definition run_undo (a : Args) (mapf : Path) (w : World)
  : Outcome * UndoState :=
  if negb (FS.exists_ w mapf) then
    (Exited 1, mkUndoState w [] [MsgMapFileMissing mapf])
  else
    match nodes w !! mapf ≫= saved_map with
    | None => (Uncaught ValueError, mkUndoState w [] [])
    | Some data =>
        let st := undo_loop (arg_verbose a) (mkUndoState w [] []) data in
        (Exited 0,
         mkUndoState (undo_world st) (reversed_ops st)
           (undo_out st ++ [MsgUndoDone (length (reversed_ops st))]))
    end.

(** *** Plan and apply mode *)

Definition counter_field : str := u "{counter}".

(** [re.sub(r'\{counter\}', repl, pattern)]: every occurrence, from the
    left; [skip] characters of a match are still to be passed over. *)
Fixpoint sub_counter (repl : str) (skip : nat) (s : str) : str :=
  match s with
  | [] => []
  | c :: r =>
      match skip with
      | S k => sub_counter repl k r
      | O =>
          if is_prefix counter_field s
          then repl ++ sub_counter repl (length counter_field - 1) r
          else c :: sub_counter repl 0 r
      end
  end.

(** The pattern after the zero-padding of a bare counter is written in. *)
Definition effective_pattern (a : Args) : str :=
  if negb (arg_digits a =? 0)%Z && contains counter_field (arg_pattern a)
  then sub_counter (u "{counter:0" ++ str_of_Z (arg_digits a) ++ u "d}") 0
                   (arg_pattern a)
  else arg_pattern a.

Record State := mkState {
  world : World;
  counter : Z;
  ops : list (Path * Path);
  out : list Msg;
}.

Definition print (st : State) (m : Msg) : State :=
  mkState (world st) (counter st) (ops st) (out st ++ [m]).

(** The naming context of one file. *)
Definition naming_context (a : Args) (counter : Z) (orig_stem ext : str)
    (date_dt mtime_dt : datetime) : gmap str Value :=
  {[ u "counter" := VInt counter;
     u "orig" := VStr orig_stem;
     u "ext" := VStr ext;
     u "date" := VDate date_dt;
     u "mtime" := VDate mtime_dt;
     u "prefix" := VStr (arg_prefix a);
     u "suffix" := VStr (arg_suffix a) ]}.

(** The target name: the sanitised expansion, followed by the original
    extension unless the pattern holds the text of an [ext] field. *)
Definition new_name (pattern new_name_base ext : str) : str :=
  if contains (u "{ext") pattern then sanitize_filename new_name_base
  else sanitize_filename new_name_base
       ++ (match ext with [] => [] | _ => dot :: ext end).

(** The first half of the loop body: the values the pattern may use for
    the file [p], and its extension. *)
Definition file_context (a : Args) (w : World) (counter : Z) (p : Path)
  : result (gmap str Value * str) :=
  let orig_stem := stem p in
  let ext := lstrip_by (N.eqb dot) (suffix p) in
  exif_dt ← (if arg_exif_date a then get_exif_datetime w p else Ok None);
  nd ← FS.stat w p;
  let mtime_dt := FS.fromtimestamp (st_mtime nd) in
  let date_dt := default mtime_dt exif_dt in
  Ok (naming_context a counter orig_stem ext date_dt mtime_dt, ext).

(** How one turn of the loop over the files ends. *)
Inductive Turn :=
| Next (st : State)
| Exit (code : Z) (st : State).

(** The second half: expansion, target, record and rename.  [sys.exit]
    leaves the loop; it is not an [Exception]. *)
Definition plan_file (a : Args) (pattern : str) (st : State) (p : Path)
    (mapping : gmap str Value) (ext : str) : Turn :=
  let w := world st in
  match format_map resolve format_obj pattern mapping with
  | Raise (KeyError k) =>
      Exit 1 (print st (MsgUnknownPlaceholder (KeyError k) pattern))
  | Raise e => Exit 1 (print st (MsgFormatFailed e))
  | Ok new_name_base =>
      let target :=
        unique_target w (joinpath (parent p)
                                  (new_name pattern new_name_base ext)) in
      let st := mkState w (counter st) (ops st ++ [(p, target)]) (out st) in
      let st := if arg_verbose a || negb (arg_apply a)
                then print st (MsgPlan (name p) (name target)) else st in
      let st := if arg_apply a then
                  match FS.rename w p target with
                  | Ok w' => mkState w' (counter st) (ops st) (out st)
                  | Raise e => print st (MsgRenameFailed p target e)
                  end
                else st in
      Next (mkState (world st) (counter st + 1) (ops st) (out st))
  end.

(** The body of [for p in files], for the effective [pattern]: an
    [Exception] raised while the context is built is caught by the outer
    handler, which prints and goes on to the next file. *)
Definition process_file (a : Args) (pattern : str) (st : State) (p : Path)
  : Turn :=
  match file_context a (world st) (counter st) p with
  | Ok (mapping, ext) => plan_file a pattern st p mapping ext
  | Raise e => Next (print st (MsgFileFailed p e))
  end.

Fixpoint process_files (a : Args) (pattern : str) (st : State)
    (files : list Path) : Turn :=
  match files with
  | [] => Next st
  | p :: files' =>
      match process_file a pattern st p with
      | Next st' => process_files a pattern st' files'
      | Exit code st' => Exit code st'
      end
  end.

(** [args.map_file or (args.dir / f"rename_map_{timestamp_str}.json")] *)
Definition map_file_of (a : Args) : Path :=
  match arg_map_file a with
  | Some f => f
  | None =>
      joinpath (arg_dir a) (u "rename_map_" ++ timestamp_str a ++ u ".json")
  end.

(** The part of [main] after the undo test, on the enumerated and sorted
    [files]. *)
Definition run_rename (a : Args) (files : list Path) (w : World)
  : Outcome * State :=
  match files with
  | [] => (Exited 0, mkState w (arg_start a) [] [MsgNoFiles])
  | _ =>
      match process_files a (effective_pattern a)
                          (mkState w (arg_start a) [] []) files with
      | Exit code st => (Exited code, st)
      | Next st =>
          if arg_apply a then
            match FS.write_map (world st) (map_file_of a) (ops st) with
            | Ok w' =>
                (Returned,
                 mkState w' (counter st) (ops st)
                         (out st ++ [MsgMapSaved (map_file_of a)]))
            | Raise e => (Returned, print st (MsgMapSaveFailed e))
            end
          else
            (Returned,
             print (print st MsgDryRun) (MsgCount (length (ops st))))
      end
  end.

(** [main], given what [get_files] and the sort produce. *)
Definition main (a : Args) (files : list Path) (w : World)
  : Outcome * World * list Msg :=
  match arg_undo a with
  | Some mapf =>
      let r := run_undo a mapf w in (r.1, undo_world r.2, undo_out r.2)
  | None =>
      let r := run_rename a files w in (r.1, world r.2, out r.2)
  end.

(** The files [get_files] yields exist, are regular files, and are listed
    once. *)
Definition enumerated (w : World) (files : list Path) : Prop :=
  NoDup files ∧
  ∀ p, p ∈ files → ∃ nd, nodes w !! p = Some nd ∧ is_dir nd = false.

End Engine.

(** * Properties *)

Section Properties.

Variable strptime : str → result datetime.
Context {PyObj : Type}.
Variable resolve : Value → str → N → result PyObj.
Variable format_obj : PyObj → str → result str.

(** ** The EXIF date and its fallback *)

Lemma exif_candidate_Ok tags tagid rest :
  (∃ r, rest = Ok r) → ∃ r, exif_candidate strptime tags tagid rest = Ok r.
Proof.
  intros [r ->]. unfold exif_candidate.
  destruct (if tagid =? 0 then None else tags !! tagid) as [val|]; [|by eexists].
  destruct val as [s|]; simpl; [|by eexists].
  destruct (strptime s); simpl; by eexists.
Qed.

Lemma get_exif_datetime_Ok w p : ∃ r, get_exif_datetime strptime w p = Ok r.
Proof.
  unfold get_exif_datetime.
  destruct (PIL_AVAILABLE w); simpl; [|by eexists].
  destruct (Pillow.open w p) as [img|e]; simpl; [|by eexists].
  destruct (Pillow.getexif img) as [[tags|]|e]; simpl; try by eexists.
  case_bool_decide; [by eexists|].
  destruct (exif_candidate_Ok tags Pillow.DateTimeOriginal
              (exif_candidate strptime tags Pillow.DateTime (Ok None))) as [r Hr].
  { apply exif_candidate_Ok. by eexists. }
  rewrite Hr. by eexists.
Qed.

(** A tag of the image, holding text that [strptime] reads as [d]. *)
Definition exif_date_read (w : World) (p : Path) (d : datetime) : Prop :=
  PIL_AVAILABLE w = true ∧
  ∃ nd tags tagid s,
    nodes w !! p = Some nd ∧ image nd = Exif (Some tags)
    ∧ (tagid = Pillow.DateTimeOriginal ∨ tagid = Pillow.DateTime)
    ∧ tags !! tagid = Some (EStr s) ∧ strptime s = Ok d.

Lemma exif_candidate_Some tags tagid rest d :
  exif_candidate strptime tags tagid rest = Ok (Some d) →
  (∃ s, tags !! tagid = Some (EStr s) ∧ strptime s = Ok d)
  ∨ rest = Ok (Some d).
Proof.
  unfold exif_candidate. destruct (tagid =? 0); [by right|].
  destruct (tags !! tagid) as [[s|]|]; simpl; [| by right ..].
  destruct (strptime s) as [d'|e] eqn:E; simpl; [|by right].
  intros [= <-]. left. by exists s.
Qed.

Lemma get_exif_datetime_Some w p d :
  get_exif_datetime strptime w p = Ok (Some d) → exif_date_read w p d.
Proof.
  unfold get_exif_datetime, exif_date_read.
  destruct (PIL_AVAILABLE w); simpl; [|done].
  unfold Pillow.open. destruct (nodes w !! p) as [nd|] eqn:Hnd; simpl; [|done].
  destruct (image nd) as [| |[tags|]] eqn:Himg; simpl; try done.
  case_bool_decide; [done|]. intros Hget. split; [done|].
  assert (try_except
            (exif_candidate strptime tags Pillow.DateTimeOriginal
               (exif_candidate strptime tags Pillow.DateTime (Ok None)))
            (fun _ => Ok None) = Ok (Some d)) as H' by exact Hget.
  clear Hget.
  destruct (exif_candidate strptime tags Pillow.DateTimeOriginal _)
    as [r|e] eqn:E; simpl in H'; [|done].
  injection H' as ->.
  apply exif_candidate_Some in E as [(s & Hs & Hd)|E].
  - exists nd, tags, Pillow.DateTimeOriginal, s. repeat split; auto.
  - apply exif_candidate_Some in E as [(s & Hs & Hd)|E]; [|done].
    exists nd, tags, Pillow.DateTime, s. repeat split; auto.
Qed.

Lemma naming_context_date a c o e d m :
  naming_context a c o e d m !! u "date" = Some (VDate d).
Proof. reflexivity. Qed.

Lemma naming_context_mtime a c o e d m :
  naming_context a c o e d m !! u "mtime" = Some (VDate m).
Proof. reflexivity. Qed.

Lemma naming_context_counter a c o e d m :
  naming_context a c o e d m !! u "counter" = Some (VInt c).
Proof. reflexivity. Qed.


(** ** The file system under [rename] *)

Lemma exists_true w p : FS.exists_ w p = true ↔ is_Some (nodes w !! p).
Proof.
  unfold FS.exists_.
  destruct (nodes w !! p); split;
    first [done | by eexists | by intros [? ?]].
Qed.

Lemma exists_false w p : FS.exists_ w p = false ↔ nodes w !! p = None.
Proof. unfold FS.exists_. by destruct (nodes w !! p). Qed.

Lemma rename_Ok w src dst w' :
  FS.rename w src dst = Ok w' →
  ∃ nd, nodes w !! src = Some nd
    ∧ rename_refused w src dst = false
    ∧ nodes w' = <[dst := nd]> (delete src (nodes w))
    ∧ rename_refused w' = rename_refused w
    ∧ write_refused w' = write_refused w
    ∧ PIL_AVAILABLE w' = PIL_AVAILABLE w.
Proof.
  unfold FS.rename. destruct (nodes w !! src) as [nd|]; [|done].
  destruct (rename_refused w src dst) eqn:E; [done|].
  intros [= <-]. exists nd. by repeat split.
Qed.

Lemma rename_exists_dst w src dst w' :
  FS.rename w src dst = Ok w' → FS.exists_ w' dst = true.
Proof.
  intros (nd & _ & _ & Hn & _)%rename_Ok. apply exists_true.
  rewrite Hn, lookup_insert_eq. by eexists.
Qed.

Lemma rename_exists_other w src dst w' q :
  FS.rename w src dst = Ok w' → q ≠ src →
  FS.exists_ w q = true → FS.exists_ w' q = true.
Proof.
  intros (nd & _ & _ & Hn & _)%rename_Ok Hq Hex. apply exists_true.
  apply exists_true in Hex. rewrite Hn.
  destruct (decide (dst = q)) as [->|Hne].
  - rewrite lookup_insert_eq. by eexists.
  - by rewrite lookup_insert_ne, lookup_delete_ne.
Qed.

Lemma rename_succeeds w src dst :
  FS.exists_ w src = true → rename_refused w src dst = false →
  ∃ w', FS.rename w src dst = Ok w'.
Proof.
  intros [nd Hnd]%exists_true Href. unfold FS.rename.
  rewrite Hnd, Href. by eexists.
Qed.

(** ** One turn of the loop *)

Definition turn_state (t : Turn) : State :=
  match t with Next st => st | Exit _ st => st end.

(** A file that exists always reaches the planning half, with its counter
    bound in the context. *)
Lemma file_context_exists a w c p :
  FS.exists_ w p = true →
  ∃ mapping ext,
    file_context strptime a w c p = Ok (mapping, ext)
    ∧ mapping !! u "counter" = Some (VInt c).
Proof.
  intros [nd Hnd]%exists_true. unfold file_context.
  assert (∃ r, (if arg_exif_date a then get_exif_datetime strptime w p
                else Ok None) = Ok r) as [r ->].
  { destruct (arg_exif_date a); [apply get_exif_datetime_Ok | by eexists]. }
  simpl. unfold FS.stat. rewrite Hnd. simpl.
  eexists. eexists. split; [reflexivity|]. apply naming_context_counter.
Qed.

Definition pattern_error (m : Msg) : Prop :=
  match m with
  | MsgUnknownPlaceholder _ _ | MsgFormatFailed _ => True
  | _ => False
  end.

(** What the planning half does to the state. *)
Inductive planned (a : Args) (st : State) (p : Path) : Turn → Prop :=
| planned_abort msg :
    pattern_error msg →
    planned a st p
      (Exit 1 (mkState (world st) (counter st) (ops st) (out st ++ [msg])))
| planned_preview target :
    arg_apply a = false →
    FS.exists_ (world st) target = false →
    planned a st p
      (Next (mkState (world st) (counter st + 1) (ops st ++ [(p, target)])
               (out st ++ [MsgPlan (name p) (name target)])))
| planned_renamed target w' :
    arg_apply a = true →
    FS.exists_ (world st) target = false →
    FS.rename (world st) p target = Ok w' →
    planned a st p
      (Next (mkState w' (counter st + 1) (ops st ++ [(p, target)])
               (out st ++ (if arg_verbose a
                           then [MsgPlan (name p) (name target)] else []))))
| planned_refused target e :
    arg_apply a = true →
    FS.exists_ (world st) target = false →
    FS.rename (world st) p target = Raise e →
    planned a st p
      (Next (mkState (world st) (counter st + 1) (ops st ++ [(p, target)])
               (out st ++ (if arg_verbose a
                           then [MsgPlan (name p) (name target)] else [])
                       ++ [MsgRenameFailed p target e]))).

Lemma plan_file_planned a pattern st p mapping ext :
  planned a st p (plan_file resolve format_obj a pattern st p mapping ext).
Proof.
  unfold plan_file.
  destruct (format_map resolve format_obj pattern mapping) as [base|e].
  - set (target := unique_target (world st) _).
    pose proof (unique_target_fresh (world st)
                  (joinpath (parent p) (new_name pattern base ext))) as Hfresh.
    fold target in Hfresh.
    destruct (arg_apply a) eqn:Happly; simpl.
    + destruct (arg_verbose a) eqn:Hv; simpl;
        destruct (FS.rename (world st) p target) as [w'|e] eqn:Hr; simpl.
      * pose proof (planned_renamed a st p target w' Happly Hfresh Hr) as H.
        by rewrite Hv in H.
      * pose proof (planned_refused a st p target e Happly Hfresh Hr) as H.
        rewrite Hv in H. simpl in H. by rewrite <- app_assoc.
      * pose proof (planned_renamed a st p target w' Happly Hfresh Hr) as H.
        rewrite Hv in H. by rewrite app_nil_r in H.
      * pose proof (planned_refused a st p target e Happly Hfresh Hr) as H.
        by rewrite Hv in H.
    + rewrite orb_true_r. simpl.
      apply (planned_preview a st p target Happly Hfresh).
  - destruct e; unfold print; by constructor.
Qed.

(** Every turn either skips the file after a failed [stat], or plans it. *)
Lemma process_file_cases a pattern st p :
  (FS.exists_ (world st) p = false ∧
   ∃ e, process_file strptime resolve format_obj a pattern st p
        = Next (print st (MsgFileFailed p e)))
  ∨ (FS.exists_ (world st) p = true ∧
     planned a st p (process_file strptime resolve format_obj a pattern st p)).
Proof.
  unfold process_file.
  destruct (FS.exists_ (world st) p) eqn:Hex.
  - right. split; [done|].
    destruct (file_context_exists a (world st) (counter st) p Hex)
      as (m & ext & -> & _).
    apply plan_file_planned.
  - left. split; [done|]. apply exists_false in Hex.
    unfold file_context.
    assert (∃ r, (if arg_exif_date a
                  then get_exif_datetime strptime (world st) p
                  else Ok None) = Ok r) as [r ->].
    { destruct (arg_exif_date a); [apply get_exif_datetime_Ok | by eexists]. }
    simpl. unfold FS.stat. rewrite Hex. simpl. by eexists.
Qed.

(** The five ways a turn can go, as a case analysis. *)
Ltac turn_cases a pattern st p :=
  let Hex := fresh "Hex" in
  let Hpl := fresh "Hpl" in
  let e := fresh "e" in
  let Heq := fresh "Heq" in
  destruct (process_file_cases a pattern st p) as [[Hex [e Heq]]|[Hex Hpl]];
  [ rewrite Heq
  | destruct Hpl as [msg Hmsg|target Happly Hfresh|target w' Happly Hfresh Hren
                     |target e Happly Hfresh Hren] ].

(** An invariant of the turns is an invariant of the loop. *)
Lemma process_files_invariant (P : State → Prop) a pattern files st :
  P st →
  (∀ st p, P st →
     P (turn_state (process_file strptime resolve format_obj a pattern st p))) →
  P (turn_state (process_files strptime resolve format_obj a pattern st files)).
Proof.
  intros Hst Hstep. revert st Hst.
  induction files as [|p files IH]; intros st Hst; simpl; [done|].
  specialize (Hstep st p Hst).
  destruct (process_file strptime resolve format_obj a pattern st p);
    simpl in *; [by apply IH | done].
Qed.

(** The loop is only ever left with exit code 1. *)
Lemma process_files_exit_code a pattern files st code st' :
  process_files strptime resolve format_obj a pattern st files = Exit code st' →
  code = 1%Z.
Proof.
  revert st. induction files as [|p files IH]; intros st; simpl; [done|].
  turn_cases a pattern st p; try by apply IH.
  by intros [= <- _].
Qed.

(** ** The counter *)

Lemma process_files_counter a pattern pre rest st :
  NoDup (pre ++ rest) →
  (∀ q, q ∈ pre ++ rest → FS.exists_ (world st) q = true) →
  match process_files strptime resolve format_obj a pattern st pre with
  | Next st' =>
      counter st' = (counter st + Z.of_nat (length pre))%Z
      ∧ length (ops st') = (length (ops st) + length pre)%nat
      ∧ ∀ q, q ∈ rest → FS.exists_ (world st') q = true
  | Exit code _ => code = 1%Z
  end.
Proof.
  revert st. induction pre as [|p pre IH]; intros st Hnd Hex; simpl.
  - split; [lia|]. split; [lia|]. intros q Hq. apply Hex. by simpl.
  - simpl in Hnd. apply NoDup_cons in Hnd as [Hp Hnd].
    assert (FS.exists_ (world st) p = true) as Hpex
      by (apply Hex; simpl; left).
    turn_cases a pattern st p; [congruence|done|..];
      match goal with
      | |- context [process_files _ _ _ _ _ ?s pre] =>
          specialize (IH s Hnd); simpl in IH
      end;
      (lapply IH;
       [ destruct (process_files _ _ _ _ _ _ pre); [|done];
         rewrite length_app; simpl; intros (-> & -> & ?);
         split; [lia|]; split; [lia|done]
       | intros q Hq ]).
    + apply Hex. by right.
    + apply (rename_exists_other _ _ _ _ _ Hren).
      * intros ->. by apply Hp.
      * apply Hex. by right.
    + apply Hex. by right.
Qed.

Lemma enumerated_exists w files q :
  enumerated w files → q ∈ files → FS.exists_ w q = true.
Proof.
  intros [_ H] Hq. destruct (H q Hq) as (nd & Hnd & _).
  apply exists_true. by eexists.
Qed.


(** When the loop is not left early, every file has taken one counter
    value and produced one operation. *)
Lemma counter_after_all_files a w files st :
  enumerated w files →
  process_files strptime resolve format_obj a (effective_pattern a)
    (mkState w (arg_start a) [] []) files = Next st →
  counter st = (arg_start a + Z.of_nat (length files))%Z
  ∧ length (ops st) = length files.
Proof.
  intros Henum Hrun.
  pose proof (process_files_counter a (effective_pattern a) files []
                (mkState w (arg_start a) [] [])) as H.
  rewrite app_nil_r in H.
  lapply H; [clear H; intros H|apply Henum].
  lapply H; [clear H; intros H|intros q Hq; by apply (enumerated_exists w _ q Henum)].
  rewrite Hrun in H. simpl in H. by destruct H as (? & ? & _).
Qed.

(** ** Destinations within one batch *)

Lemma process_files_distinct a pattern files st :
  arg_apply a = true →
  NoDup files →
  (∀ q, q ∈ files → FS.exists_ (world st) q = true) →
  (∀ q d, q ∈ files → rename_refused (world st) q d = false) →
  NoDup (ops st).*2 →
  (∀ d, d ∈ (ops st).*2 → FS.exists_ (world st) d = true ∧ d ∉ files) →
  NoDup (ops (turn_state
           (process_files strptime resolve format_obj a pattern st files))).*2.
Proof.
  intros Happ. revert st.
  induction files as [|p files IH]; intros st Hnd Hex Href Hops Hdst; simpl;
    [done|].
  apply NoDup_cons in Hnd as [Hp Hnd].
  assert (FS.exists_ (world st) p = true) as Hpex by (apply Hex; left).
  turn_cases a pattern st p; [congruence|done|congruence| |].
  - apply IH; simpl; [done| | | |].
    + intros q Hq. apply (rename_exists_other _ _ _ _ _ Hren).
      * intros ->. by apply Hp.
      * apply Hex. by right.
    + intros q d Hq.
      apply rename_Ok in Hren as (_ & _ & _ & _ & -> & _).
      apply Href. by right.
    + rewrite fmap_app. simpl. apply NoDup_app. split; [done|].
      split; [|apply NoDup_singleton].
      intros d Hd ->%list_elem_of_singleton.
      destruct (Hdst _ Hd) as [Hd1 _]. congruence.
    + intros d. rewrite fmap_app. simpl.
      intros [Hd| ->%list_elem_of_singleton]%elem_of_app.
      * destruct (Hdst _ Hd) as [Hd1 Hd2]. split.
        -- apply (rename_exists_other _ _ _ _ _ Hren); [|done].
           intros ->. apply Hd2. left.
        -- intros Hin. apply Hd2. by right.
      * split; [by apply (rename_exists_dst _ _ _ _ Hren)|].
        intros Hin. specialize (Hex target ltac:(by right)). congruence.
  - exfalso.
    destruct (rename_succeeds (world st) p target Hpex) as [w' Hw'].
    + apply Href. left.
    + congruence.
Qed.

(** C1 (amended). In apply mode, over enumerated files whose renames the
    system does not refuse, the destinations recorded in one batch are
    pairwise distinct: each one is on disk when the next is resolved. *)
Theorem applied_destinations_distinct
    (a : Args) (files : list Path) (w : World) :
  arg_apply a = true →
  enumerated w files →
  (∀ q d, q ∈ files → rename_refused w q d = false) →
  NoDup (ops (run_rename strptime resolve format_obj a files w).2).*2.
Proof.
  intros Happ Henum Href.
  pose proof (process_files_distinct a (effective_pattern a) files
                (mkState w (arg_start a) [] []) Happ) as H.
  lapply H; [clear H; intros H|apply Henum].
  lapply H; [clear H; intros H
            |intros q Hq; by apply (enumerated_exists w _ q Henum)].
  specialize (H Href). simpl in H.
  lapply H; [clear H; intros H|apply NoDup_nil_2].
  lapply H; [clear H; intros H|intros d Hd; by apply elem_of_nil in Hd].
  unfold run_rename. destruct files as [|p files]; [apply NoDup_nil_2|].
  destruct (process_files _ _ _ _ _ _ (p :: files)) as [st|code st];
    simpl in *; [|done].
  rewrite Happ.
  destruct (FS.write_map (world st) (map_file_of a) (ops st)); simpl; done.
Qed.

(** ** The saved map *)

Lemma process_files_failed_recorded a pattern files st :
  (∀ p t e, MsgRenameFailed p t e ∈ out st → (p, t) ∈ ops st) →
  ∀ p t e,
    MsgRenameFailed p t e
      ∈ out (turn_state
               (process_files strptime resolve format_obj a pattern st files)) →
    (p, t) ∈ ops (turn_state
                    (process_files strptime resolve format_obj a pattern st files)).
Proof.
  intros Hst.
  apply (process_files_invariant
           (fun st => ∀ p t e, MsgRenameFailed p t e ∈ out st → (p, t) ∈ ops st));
    [done|].
  clear st Hst. intros st p Hst.
  turn_cases a pattern st p; simpl; intros p' t' e';
    rewrite ?elem_of_app, ?list_elem_of_singleton.
  - intros [H|[=]]. eauto.
  - intros [H|H]; [eauto|]. by subst msg.
  - intros [H|[=]]. left. eauto.
  - intros [H|H]; [left; eauto|].
    destruct (arg_verbose a); [|by apply elem_of_nil in H].
    by apply list_elem_of_singleton in H.
  - intros [H|[H|[= -> -> ->]]]; [left; eauto| |by right].
    destruct (arg_verbose a); [|by apply elem_of_nil in H].
    by apply list_elem_of_singleton in H.
Qed.

Lemma process_files_write_refused a pattern files st :
  write_refused
    (world (turn_state
              (process_files strptime resolve format_obj a pattern st files)))
  = write_refused (world st).
Proof.
  apply (process_files_invariant
           (fun s => write_refused (world s) = write_refused (world st)));
    [done|].
  intros s p Hs. turn_cases a pattern s p; simpl; try done.
  by apply rename_Ok in Hren as (_ & _ & _ & _ & _ & -> & _).
Qed.


(** ** Preview mode *)

Lemma process_files_preview_world a pattern files st :
  arg_apply a = false →
  world (turn_state
           (process_files strptime resolve format_obj a pattern st files))
  = world st.
Proof.
  intros Happ.
  apply (process_files_invariant (fun s => world s = world st)); [done|].
  intros s p Hs. turn_cases a pattern s p; simpl; congruence.
Qed.

Lemma process_files_preview_reported a pattern files st :
  arg_apply a = false →
  (∀ op, op ∈ ops st → MsgPlan (name op.1) (name op.2) ∈ out st) →
  ∀ op,
    op ∈ ops (turn_state
                (process_files strptime resolve format_obj a pattern st files)) →
    MsgPlan (name op.1) (name op.2)
      ∈ out (turn_state
               (process_files strptime resolve format_obj a pattern st files)).
Proof.
  intros Happ Hst.
  apply (process_files_invariant
           (fun s => ∀ op, op ∈ ops s → MsgPlan (name op.1) (name op.2) ∈ out s));
    [done|].
  clear st Hst. intros st p Hst.
  turn_cases a pattern st p; simpl; try congruence; intros op;
    rewrite ?elem_of_app, ?list_elem_of_singleton.
  - intros H. left. eauto.
  - intros H. left. eauto.
  - intros [H| ->]; [left; eauto|by right].
Qed.

(** C4 (amended). In preview mode (no [--apply], no [--undo]) the file
    system at the end is the one at the start, whatever the configuration
    and the files: nothing is renamed, no map file is written.  Every
    planned operation has been printed.  The run returns with the notice
    and the number of planned operations as its last two lines, unless no
    file was found (exit code 0) or a pattern error stopped it (exit
    code 1). *)
Theorem preview_changes_nothing
    (a : Args) (files : list Path) (w : World) :
  arg_apply a = false →
  arg_undo a = None →
  let r := run_rename strptime resolve format_obj a files w in
  main strptime resolve format_obj a files w = (r.1, w, out r.2)
  ∧ world r.2 = w
  ∧ (∀ op, op ∈ ops r.2 → MsgPlan (name op.1) (name op.2) ∈ out r.2)
  ∧ ((r.1 = Returned ∧ files ≠ []
      ∧ ∃ printed, out r.2
          = printed ++ [MsgDryRun; MsgCount (length (ops r.2))])
     ∨ (r.1 = Exited 0 ∧ files = [] ∧ out r.2 = [MsgNoFiles])
     ∨ (r.1 = Exited 1 ∧ files ≠ [])).
Proof.
  intros Happ Hundo r.
  assert (world r.2 = w) as Hw.
  { unfold r, run_rename. destruct files as [|p0 files]; [done|].
    pose proof (process_files_preview_world a (effective_pattern a)
                  (p0 :: files) (mkState w (arg_start a) [] []) Happ) as H.
    destruct (process_files _ _ _ _ _ _ (p0 :: files)); simpl in *; [|done].
    by rewrite Happ. }
  split.
  { unfold main. rewrite Hundo.
    change (run_rename strptime resolve format_obj a files w) with r.
    cbv zeta. by rewrite Hw. }
  split; [done|].
  unfold r, run_rename. destruct files as [|p0 files].
  { simpl. split; [by intros op []%elem_of_nil|]. right. by left. }
  pose proof (process_files_preview_reported a (effective_pattern a)
                (p0 :: files) (mkState w (arg_start a) [] []) Happ
                ltac:(by intros op []%elem_of_nil)) as Hrep.
  pose proof (process_files_exit_code a (effective_pattern a)
                (p0 :: files) (mkState w (arg_start a) [] [])) as Hcode.
  destruct (process_files _ _ _ _ _ _ (p0 :: files)) as [s|code s];
    simpl in *.
  - rewrite Happ. simpl. split.
    + intros op Hop. rewrite <- app_assoc. apply elem_of_app. left. eauto.
    + left. split; [done|]. split; [done|]. exists (out s).
      by rewrite <- app_assoc.
  - split; [done|]. right. right. by rewrite (Hcode _ _ eq_refl).
Qed.

(** ** Format strings: where the fields of a pattern come from *)

Definition substr (a b : str) : Prop := ∃ pre post, b = pre ++ a ++ post.

Lemma is_prefix_true a b : is_prefix a b = true ↔ ∃ post, b = a ++ post.
Proof.
  revert b. induction a as [|x a IH]; intros b; simpl.
  - split; [by exists b|done].
  - destruct b as [|y b].
    + split; [done|]. by intros [post H].
    + rewrite andb_true_iff, N.eqb_eq, IH. split.
      * intros [-> [post ->]]. by exists post.
      * intros [post [= -> ->]]. split; [done|]. by exists post.
Qed.

Lemma contains_true a b : contains a b = true ↔ substr a b.
Proof.
  induction b as [|y b IH]; simpl; rewrite orb_true_iff, is_prefix_true.
  - split.
    + intros [[post H]|]; [|done]. by exists [], post.
    + intros ([|? ?] & post & H); [|done]. left. by exists post.
  - rewrite IH. split.
    + intros [[post H]|(pre & post & ->)].
      * by exists [], post.
      * by exists (y :: pre), post.
    + intros ([|z pre] & post & H).
      * left. by exists post.
      * right. injection H as -> ->. by exists pre, post.
Qed.

Lemma substr_snoc a b c : substr a b → substr a (b ++ [c]).
Proof.
  intros (pre & post & ->). exists pre, (post ++ [c]).
  by rewrite <- !app_assoc.
Qed.

Lemma substr_suffix a x : substr a (x ++ a).
Proof. exists x, []. by rewrite app_nil_r. Qed.

Lemma substr_trans a b c : substr a b → substr b c → substr a c.
Proof.
  intros (p1 & q1 & ->) (p2 & q2 & ->).
  exists (p2 ++ p1), (q1 ++ q2). by rewrite <- !app_assoc.
Qed.

(** What the scanner knows of the text [pre] it has read: the name of every
    field, with the brace before it, and every format specification, stand
    in [pre]. *)
Definition field_in (pre : str) (f : Field) : Prop :=
  substr (brace_l :: arg_name f) pre ∧ substr (format_spec f) pre.

Definition phase_in (pre : str) (p : phase) : Prop :=
  match p with
  | Lit | Close | Failed => True
  | Open => ∃ x, pre = x ++ [brace_l]
  | Name first rest =>
      substr (brace_l :: first) pre
      ∧ (rest = [] → ∃ x, pre = x ++ brace_l :: first)
  | Bracket first _ | Conv first _ | ConvEnd first _ _ =>
      substr (brace_l :: first) pre
  | Spec first _ _ spec _ _ =>
      substr (brace_l :: first) pre ∧ ∃ x, pre = x ++ spec
  end.

Definition scanned (pre : str) (sc : scanner) : Prop :=
  (∀ f, Replacement f ∈ items sc → field_in pre f) ∧ phase_in pre (ph sc).

Lemma scanned_yield pre sc c f :
  (∀ g, Replacement g ∈ items sc → field_in pre g) →
  field_in pre f →
  scanned (pre ++ [c]) (yield sc f).
Proof.
  intros Hit Hf. split; [|done]. simpl. intros g.
  rewrite elem_of_app, !elem_of_cons.
  intros [Hg|[[=]|[[= <-]|[]%elem_of_nil]]].
  - destruct (Hit g Hg). split; by apply substr_snoc.
  - destruct Hf. split; by apply substr_snoc.
Qed.

Lemma scanned_goto pre sc c p :
  (∀ g, Replacement g ∈ items sc → field_in pre g) →
  phase_in (pre ++ [c]) p →
  scanned (pre ++ [c]) (goto sc p).
Proof.
  intros Hit Hp. split; [|done]. simpl. intros g Hg.
  destruct (Hit g Hg). split; by apply substr_snoc.
Qed.

Lemma substr_nil pre : substr [] pre.
Proof. by exists [], pre. Qed.

Lemma scanned_name_step pre sc first rest c :
  (∀ g, Replacement g ∈ items sc → field_in pre g) →
  substr (brace_l :: first) pre →
  (rest = [] → ∃ x, pre = x ++ brace_l :: first) →
  scanned (pre ++ [c]) (name_step sc first rest c).
Proof.
  intros Hit Hsub Hsuf. unfold name_step.
  repeat case_match;
    try (apply scanned_goto; [done|]; simpl);
    try (apply scanned_yield; [done|]; split; simpl);
    try done; try apply substr_nil; try (by apply substr_snoc).
  - split; [by apply substr_snoc|]. exists (pre ++ [c]). by rewrite app_nil_r.
  - split; [by apply substr_snoc|done].
  - destruct (Hsuf eq_refl) as [x ->].
    assert (∃ y, (x ++ brace_l :: first) ++ [c]
                 = y ++ brace_l :: first ++ [c]) as [y Hy].
    { exists x. by rewrite <- app_assoc. }
    split; [|intros _; by exists y]. rewrite Hy. apply substr_suffix.
  - split; [by apply substr_snoc|done].
Qed.

Lemma scanned_keep pre sc c sc' :
  (∀ g, Replacement g ∈ items sc → field_in pre g) →
  items sc' = items sc →
  phase_in (pre ++ [c]) (ph sc') →
  scanned (pre ++ [c]) sc'.
Proof.
  intros Hit Heq Hp. split; [|done]. rewrite Heq. intros g Hg.
  destruct (Hit g Hg). split; by apply substr_snoc.
Qed.

Lemma scanned_step pre sc c :
  scanned pre sc → scanned (pre ++ [c]) (step sc c).
Proof.
  intros [Hit Hph]. unfold step.
  destruct (ph sc) as [| | |first rest|first rest|first rest|first rest conv
                       |first rest conv spec depth expand|] eqn:Hphase;
    simpl in Hph.
  - destruct (N.eqb_spec c brace_l) as [->|_].
    + apply (scanned_keep pre sc); [done..|]. by exists pre.
    + destruct (c =? brace_r); by apply (scanned_keep pre sc).
  - destruct (c =? brace_l); [by apply (scanned_keep pre sc)|].
    destruct Hph as [x ->].
    apply scanned_name_step; [done|apply substr_suffix|].
    intros _. by exists x.
  - destruct (c =? brace_r); by apply (scanned_keep pre sc).
  - destruct Hph. by apply scanned_name_step.
  - destruct (c =? bracket_r); apply (scanned_keep pre sc); try done; simpl.
    + split; [by apply substr_snoc|]. by destruct rest.
    + by apply substr_snoc.
  - apply (scanned_keep pre sc); [done..|]. simpl. by apply substr_snoc.
  - destruct (c =? brace_r).
    { apply scanned_yield; [done|]. split; [done|apply substr_nil]. }
    destruct (c =? colon); apply (scanned_keep pre sc); try done. simpl.
    split; [by apply substr_snoc|]. exists (pre ++ [c]). by rewrite app_nil_r.
  - destruct Hph as [Hsub [x Hx]].
    assert (∃ y, pre ++ [c] = y ++ spec ++ [c]) as Hsnoc.
    { exists x. by rewrite Hx, <- app_assoc. }
    destruct (c =? brace_l).
    { apply (scanned_keep pre sc); [done..|]. simpl.
      split; [by apply substr_snoc|done]. }
    destruct (c =? brace_r).
    + destruct depth.
      * apply scanned_yield; [done|]. split; [done|]. simpl.
        rewrite Hx. apply substr_suffix.
      * apply (scanned_keep pre sc); [done..|]. simpl.
        split; [by apply substr_snoc|done].
    + apply (scanned_keep pre sc); [done..|]. simpl.
      split; [by apply substr_snoc|done].
  - apply (scanned_keep pre sc); [done..|]. by rewrite Hphase.
Qed.

Lemma scanned_scan s pre sc :
  scanned pre sc → scanned (pre ++ s) (scan sc s).
Proof.
  revert pre sc. induction s as [|c s IH]; intros pre sc H; simpl.
  - by rewrite app_nil_r.
  - replace (pre ++ c :: s) with ((pre ++ [c]) ++ s)
      by (by rewrite <- app_assoc).
    apply IH. by apply scanned_step.
Qed.

Lemma tokenize_fields s f :
  Replacement f ∈ (tokenize s).1 → field_in s f.
Proof.
  assert (scanned s (scan init s)) as [Hit _].
  { apply (scanned_scan s [] init). split; [|done].
    by intros g []%elem_of_nil. }
  unfold tokenize. destruct (ph (scan init s)); simpl; try apply Hit.
  intros [H|[[=]|[]%elem_of_nil]%elem_of_cons]%elem_of_app. by apply Hit.
Qed.

Lemma placeholders_elem d s x :
  x ∈ placeholders (S d) s ↔
  ∃ f, Replacement f ∈ (tokenize s).1
       ∧ (x = arg_name f
          ∨ (needs_expanding f = true ∧ x ∈ placeholders d (format_spec f))).
Proof.
  simpl. rewrite list_elem_of_In, in_flat_map. split.
  - intros ([t|f] & Hin & Hx); [done|].
    exists f. split; [by apply list_elem_of_In|].
    destruct Hx as [<-|Hx]; [by left|]. right.
    destruct (needs_expanding f); [|done]. by rewrite list_elem_of_In.
  - intros (f & Hin & Hx). exists (Replacement f).
    split; [by apply list_elem_of_In|].
    destruct Hx as [->|[Hexp Hx]]; [by left|]. right.
    rewrite Hexp. by apply list_elem_of_In.
Qed.

(** A placeholder of a pattern is written in it, after a left brace. *)
Lemma placeholders_substr d s x :
  x ∈ placeholders d s → substr (brace_l :: x) s.
Proof.
  revert s. induction d as [|d IH]; intros s; [by intros []%elem_of_nil|].
  intros (f & Hf & Hx)%placeholders_elem.
  destruct (tokenize_fields s f Hf) as [Hname Hspec].
  destruct Hx as [->|[_ Hx]]; [done|].
  by apply (substr_trans _ (format_spec f)); [apply IH|].
Qed.

(** ** Format strings: writing the zero-padding into bare counters *)

(** Characters that neither open nor close a brace, and do not close a
    bracket. *)
Definition inert (c : N) : bool :=
  negb (c =? brace_l) && negb (c =? brace_r) && negb (c =? bracket_r).

(** [Ins ins s s']: [s'] is [s] with the text [ins] written before the
    closing brace of some occurrences of [{counter}]. *)
Inductive Ins (ins : str) : str → str → Prop :=
| Ins_nil : Ins ins [] []
| Ins_same c s s' : Ins ins s s' → Ins ins (c :: s) (c :: s')
| Ins_field s s' :
    Ins ins s s' →
    Ins ins (u "{counter}" ++ s) (u "{counter" ++ ins ++ [brace_r] ++ s').

Lemma Ins_refl ins s : Ins ins s s.
Proof. induction s; by constructor. Qed.

Lemma Ins_app ins a a' b b' :
  Ins ins a a' → Ins ins b b' → Ins ins (a ++ b) (a' ++ b').
Proof.
  intros Ha Hb. induction Ha as [|c s s' _ IH|s s' _ IH]; [done|..].
  - simpl. by constructor.
  - rewrite <- !app_assoc.
    replace (u "{counter" ++ ins ++ [brace_r] ++ s' ++ b')
      with (u "{counter" ++ ins ++ [brace_r] ++ (s' ++ b')) by done.
    by constructor.
Qed.

Lemma Ins_snoc ins a a' c : Ins ins a a' → Ins ins (a ++ [c]) (a' ++ [c]).
Proof. intros H. apply Ins_app; [done|apply Ins_refl]. Qed.

Section Padding.

Variable tail : str.
Hypothesis tail_inert : Forall (fun c => inert c = true) tail.

(** The inserted text: a colon, then inert characters. *)
Let ins : str := colon :: tail.

Definition field_rel (f f' : Field) : Prop :=
  arg_name f = arg_name f'
  ∧ needs_expanding f = needs_expanding f'
  ∧ (needs_expanding f = true → Ins ins (format_spec f) (format_spec f')).

Definition item_rel (m m' : Markup) : Prop :=
  match m, m' with
  | Literal _, Literal _ => True
  | Replacement f, Replacement f' => field_rel f f'
  | _, _ => False
  end.

Definition phase_rel (p p' : phase) : Prop :=
  match p, p' with
  | Lit, Lit | Open, Open | Close, Close | Failed, Failed => True
  | Name first rest, Name first' rest' =>
      first = first' ∧ (rest = [] ↔ rest' = [])
  | Bracket first _, Bracket first' _ => first = first'
  | Conv first _, Conv first' _ => first = first'
  | ConvEnd first _ _, ConvEnd first' _ _ => first = first'
  | Spec first _ _ spec depth expand, Spec first' _ _ spec' depth' expand' =>
      first = first' ∧ depth = depth' ∧ expand = expand' ∧ Ins ins spec spec'
  | _, _ => False
  end.

Definition scanner_rel (sc sc' : scanner) : Prop :=
  Forall2 item_rel (items sc) (items sc') ∧ phase_rel (ph sc) (ph sc').

Lemma scanner_rel_yield sc sc' f f' :
  Forall2 item_rel (items sc) (items sc') → field_rel f f' →
  scanner_rel (yield sc f) (yield sc' f').
Proof.
  intros Hit Hf. split; [|done]. simpl.
  apply Forall2_app; [done|].
  constructor; [exact I|]. constructor; [exact Hf|]. constructor.
Qed.

Lemma field_rel_plain first r r' c c' s s' :
  field_rel (mkField first r c s false) (mkField first r' c' s' false).
Proof. by repeat split. Qed.

Lemma name_step_rel sc sc' first rest rest' c :
  Forall2 item_rel (items sc) (items sc') →
  (rest = [] ↔ rest' = []) →
  scanner_rel (name_step sc first rest c) (name_step sc' first rest' c).
Proof.
  intros Hit Hrest. unfold name_step.
  destruct (c =? brace_l); [by split|].
  destruct (c =? bracket_l); [by split|].
  destruct (c =? brace_r);
    [apply scanner_rel_yield; [done|apply field_rel_plain]|].
  destruct (c =? colon); [split; [done|]; repeat split; constructor|].
  destruct (c =? bang); [by split|].
  destruct rest as [|x rest], rest' as [|x' rest'];
    try (by destruct Hrest as [H1 H2]; first [specialize (H1 eq_refl)
                                             |specialize (H2 eq_refl)]).
  - destruct (c =? dot); by split.
  - split; [done|]. simpl. split; [done|]. by split.
Qed.

Lemma step_rel sc sc' c :
  scanner_rel sc sc' → scanner_rel (step sc c) (step sc' c).
Proof.
  intros [Hit Hph]. unfold step.
  destruct (ph sc) as [| | |first rest|first rest|first rest|first rest conv
                       |first rest conv spec depth expand|] eqn:Hp;
    destruct (ph sc') as [| | |first' rest'|first' rest'|first' rest'
                          |first' rest' conv'
                          |first' rest' conv' spec' depth' expand'|] eqn:Hp';
    simpl in Hph; try (exfalso; exact Hph).
  - destruct (c =? brace_l); [by split|]. destruct (c =? brace_r); by split.
  - destruct (c =? brace_l); [by split|]. by apply name_step_rel.
  - destruct (c =? brace_r); by split.
  - destruct Hph as [<- Hrest]. by apply name_step_rel.
  - destruct Hph. destruct (c =? bracket_r); split; try done; simpl.
    split; [done|]. split; intros H; by apply app_nil in H as [_ ?].
  - split; [done|]. exact Hph.
  - destruct Hph. destruct (c =? brace_r).
    { apply scanner_rel_yield; [done|]. subst. apply field_rel_plain. }
    destruct (c =? colon); split; try done. simpl. subst.
    repeat split. constructor.
  - destruct Hph as (<- & <- & <- & Hspec).
    destruct (c =? brace_l).
    { split; [done|]. simpl. repeat split. by apply Ins_snoc. }
    destruct (c =? brace_r).
    + destruct depth.
      * apply scanner_rel_yield; [done|]. by repeat split.
      * split; [done|]. simpl. repeat split. by apply Ins_snoc.
    + split; [done|]. simpl. repeat split. by apply Ins_snoc.
  - split; [done|]. by rewrite Hp, Hp'.
Qed.

(** Scanning inert characters. *)
Lemma scan_Failed it l s : scan (mkScanner it l Failed) s = mkScanner it l Failed.
Proof. by induction s. Qed.

Lemma scan_inert_Lit it l s :
  Forall (fun c => inert c = true) s →
  scan (mkScanner it l Lit) s = mkScanner it (l ++ s) Lit.
Proof.
  intros H. revert l. induction H as [|c s Hc _ IH]; intros l; simpl.
  - by rewrite app_nil_r.
  - unfold step. simpl. unfold inert in Hc.
    destruct (c =? brace_l); [done|]. destruct (c =? brace_r); [done|].
    rewrite IH. by rewrite <- app_assoc.
Qed.

Lemma scan_inert_Bracket it l first rest s :
  Forall (fun c => inert c = true) s →
  scan (mkScanner it l (Bracket first rest)) s
  = mkScanner it l (Bracket first (rest ++ s)).
Proof.
  intros H. revert rest. induction H as [|c s Hc _ IH]; intros rest; simpl.
  - by rewrite app_nil_r.
  - unfold step. simpl. unfold inert in Hc.
    destruct (c =? bracket_r); [by rewrite !andb_false_r in Hc|].
    unfold goto. simpl. rewrite IH. by rewrite <- app_assoc.
Qed.

Lemma scan_inert_Spec it l first rest conv spec depth expand s :
  Forall (fun c => inert c = true) s →
  scan (mkScanner it l (Spec first rest conv spec depth expand)) s
  = mkScanner it l (Spec first rest conv (spec ++ s) depth expand).
Proof.
  intros H. revert spec. induction H as [|c s Hc _ IH]; intros spec; simpl.
  - by rewrite app_nil_r.
  - unfold step. simpl. unfold inert in Hc.
    destruct (c =? brace_l); [done|]. destruct (c =? brace_r); [done|].
    unfold goto. simpl. rewrite IH. by rewrite <- app_assoc.
Qed.

Lemma ins_inert : Forall (fun c => inert c = true) ins.
Proof. by constructor. Qed.

Lemma scan_app sc a b : scan sc (a ++ b) = scan (scan sc a) b.
Proof. apply fold_left_app. Qed.

Lemma counter_inert : Forall (fun c => inert c = true) (u "counter").
Proof. by repeat constructor. Qed.

Lemma scan_counter_Open it l :
  scan (mkScanner it l Open) (brace_l :: u "counter")
  = mkScanner it ((l ++ [brace_l]) ++ u "counter") Lit.
Proof. apply (scan_inert_Lit it (l ++ [brace_l])), counter_inert. Qed.

Lemma scan_counter_Bracket it l first rest :
  scan (mkScanner it l (Bracket first rest)) (brace_l :: u "counter")
  = mkScanner it l (Bracket first ((rest ++ [brace_l]) ++ u "counter")).
Proof. apply (scan_inert_Bracket it l first (rest ++ [brace_l])), counter_inert. Qed.

Lemma scan_counter_Spec it l first rest conv spec depth expand :
  scan (mkScanner it l (Spec first rest conv spec depth expand))
       (brace_l :: u "counter")
  = mkScanner it l
      (Spec first rest conv ((spec ++ [brace_l]) ++ u "counter") (S depth) true).
Proof.
  apply (scan_inert_Spec it l first rest conv (spec ++ [brace_l])),
    counter_inert.
Qed.

(** A whole occurrence of the counter field, read with and without the
    inserted text. *)
Lemma block_rel sc sc' :
  scanner_rel sc sc' →
  scanner_rel (scan sc (u "{counter}"))
              (scan sc' (u "{counter" ++ ins ++ [brace_r])).
Proof.
  intros [Hit Hph].
  destruct sc as [it l p], sc' as [it' l' p']. simpl in Hit, Hph.
  change (u "{counter}") with ((brace_l :: u "counter") ++ [brace_r]).
  change (u "{counter") with (brace_l :: u "counter").
  rewrite (scan_app _ (brace_l :: u "counter") [brace_r]).
  rewrite (scan_app _ (brace_l :: u "counter") (ins ++ [brace_r])).
  rewrite (scan_app _ ins [brace_r]).
  destruct p as [| | |first rest|first rest|first rest|first rest conv
                 |first rest conv spec depth expand|];
    destruct p' as [| | |first' rest'|first' rest'|first' rest'
                    |first' rest' conv'
                    |first' rest' conv' spec' depth' expand'|];
    simpl in Hph; try (exfalso; exact Hph).
  - (* literal text: a counter field, with a format specification or not *)
    change (scan (mkScanner it l Lit) (brace_l :: u "counter"))
      with (mkScanner it l (Name (u "counter") [])).
    change (scan (mkScanner it' l' Lit) (brace_l :: u "counter"))
      with (mkScanner it' l' (Name (u "counter") [])).
    change (scan (mkScanner it' l' (Name (u "counter") [])) ins)
      with (scan (mkScanner it' l' (Spec (u "counter") [] 0 [] 0 false)) tail).
    rewrite (scan_inert_Spec _ _ _ _ _ _ _ _ _ tail_inert).
    apply (scanner_rel_yield (mkScanner it l Lit) (mkScanner it' l' Lit));
      [done|apply field_rel_plain].
  - (* after a left brace: an escaped brace, then literal text *)
    rewrite !scan_counter_Open, (scan_inert_Lit _ _ _ ins_inert).
    by split.
  - (* after a right brace *)
    change (scan (mkScanner it l Close) (brace_l :: u "counter"))
      with (mkScanner it l Failed).
    change (scan (mkScanner it' l' Close) (brace_l :: u "counter"))
      with (mkScanner it' l' Failed).
    rewrite !scan_Failed. by split.
  - change (scan (mkScanner it l (Name first rest)) (brace_l :: u "counter"))
      with (mkScanner it l Failed).
    change (scan (mkScanner it' l' (Name first' rest')) (brace_l :: u "counter"))
      with (mkScanner it' l' Failed).
    rewrite !scan_Failed. by split.
  - rewrite !scan_counter_Bracket, (scan_inert_Bracket _ _ _ _ _ ins_inert).
    by split.
  - change (scan (mkScanner it l (Conv first rest)) (brace_l :: u "counter"))
      with (scan (mkScanner it l Failed) (u "ounter")).
    change (scan (mkScanner it' l' (Conv first' rest')) (brace_l :: u "counter"))
      with (scan (mkScanner it' l' Failed) (u "ounter")).
    rewrite !scan_Failed. by split.
  - change (scan (mkScanner it l (ConvEnd first rest conv))
                 (brace_l :: u "counter"))
      with (mkScanner it l Failed).
    change (scan (mkScanner it' l' (ConvEnd first' rest' conv'))
                 (brace_l :: u "counter"))
      with (mkScanner it' l' Failed).
    rewrite !scan_Failed. by split.
  - destruct Hph as (<- & <- & <- & Hspec).
    rewrite !scan_counter_Spec, (scan_inert_Spec _ _ _ _ _ _ _ _ _ ins_inert).
    split; [done|]. simpl. repeat split.
    replace ((((spec' ++ [brace_l]) ++ u "counter") ++ ins) ++ [brace_r])
      with (spec' ++ (u "{counter" ++ ins ++ [brace_r] ++ []))
      by (rewrite app_nil_r, <- !app_assoc; done).
    replace (((spec ++ [brace_l]) ++ u "counter") ++ [brace_r])
      with (spec ++ (u "{counter}" ++ []))
      by (rewrite app_nil_r, <- !app_assoc; done).
    apply Ins_app; [done|]. apply Ins_field. constructor.
  - rewrite !scan_Failed. by split.
Qed.

Lemma scan_rel s s' sc sc' :
  Ins ins s s' → scanner_rel sc sc' → scanner_rel (scan sc s) (scan sc' s').
Proof.
  intros H. revert sc sc'.
  induction H as [|c s s' _ IH|s s' _ IH]; intros sc sc' Hrel; [done|..].
  - simpl. by apply IH, step_rel.
  - rewrite scan_app.
    replace (u "{counter" ++ ins ++ [brace_r] ++ s')
      with ((u "{counter" ++ ins ++ [brace_r]) ++ s')
      by (by rewrite <- !app_assoc).
    rewrite (scan_app sc'). by apply IH, block_rel.
Qed.

Lemma tokenize_rel s s' :
  Ins ins s s' → Forall2 item_rel (tokenize s).1 (tokenize s').1.
Proof.
  intros H.
  destruct (scan_rel s s' init init H) as [Hit Hph]; [by split|].
  unfold tokenize.
  destruct (ph (scan init s)), (ph (scan init s')); simpl in *; try done.
  apply Forall2_app; [done|]. constructor; [exact I|]. constructor.
Qed.

Lemma placeholders_Ins d s s' :
  Ins ins s s' → placeholders d s' = placeholders d s.
Proof.
  revert s s'. induction d as [|d IH]; intros s s' H; [done|].
  simpl. pose proof (tokenize_rel s s' H) as Hrel.
  induction Hrel as [|m m' l l' Hm _ IHl]; [done|].
  simpl. rewrite IHl. f_equal.
  destruct m as [t|f], m' as [t'|f']; simpl in Hm; try done.
  destruct Hm as (-> & Hexp & Hspec). rewrite <- Hexp.
  destruct (needs_expanding f); [|done]. f_equal. by apply IH, Hspec.
Qed.

End Padding.

(** [re.sub] writes the replacement at occurrences of the counter field. *)
Lemma sub_counter_skip repl k s :
  sub_counter repl k s = sub_counter repl 0 (drop k s).
Proof.
  revert k. induction s as [|c s IH]; intros [|k]; simpl; done.
Qed.

Lemma sub_counter_cons repl c r :
  sub_counter repl 0 (c :: r)
  = if is_prefix counter_field (c :: r)
    then repl ++ sub_counter repl 0 (drop 8 r)
    else c :: sub_counter repl 0 r.
Proof.
  change (sub_counter repl 0 (c :: r))
    with (if is_prefix counter_field (c :: r)
          then repl ++ sub_counter repl 8 r
          else c :: sub_counter repl 0 r).
  by rewrite (sub_counter_skip repl 8).
Qed.

Lemma sub_counter_Ins ins s :
  Ins ins s (sub_counter (u "{counter" ++ ins ++ [brace_r]) 0 s).
Proof.
  remember (length s) as n eqn:Hn. revert s Hn.
  induction n as [n IH] using lt_wf_ind. intros s Hn.
  destruct s as [|c r]; [constructor|].
  rewrite sub_counter_cons.
  destruct (is_prefix counter_field (c :: r)) eqn:Hpre.
  - apply is_prefix_true in Hpre as [post Hpost].
    assert (drop 8 r = post) as ->.
    { change (c :: r) with ([c] ++ r) in Hpost.
      change counter_field with ([brace_l] ++ u "counter}") in Hpost.
      rewrite <- app_assoc in Hpost. injection Hpost as _ ->.
      apply (drop_app_length (u "counter}")). }
    rewrite Hpost. unfold counter_field.
    replace ((u "{counter" ++ ins ++ [brace_r])
             ++ sub_counter (u "{counter" ++ ins ++ [brace_r]) 0 post)
      with (u "{counter" ++ ins ++ [brace_r]
            ++ sub_counter (u "{counter" ++ ins ++ [brace_r]) 0 post)
      by (by rewrite <- !app_assoc).
    apply Ins_field. apply (IH (length post)); [|done].
    rewrite Hn, Hpost, length_app. unfold counter_field. simpl. lia.
  - apply Ins_same. apply (IH (length r)); [|done]. rewrite Hn. simpl. lia.
Qed.

Lemma str_of_Z_chars z :
  Forall (fun c => is_digit c = true ∨ c = 45) (str_of_Z z).
Proof.
  assert (∀ d, Forall (fun c => is_digit c = true ∨ c = 45)
                 (u (NilEmpty.string_of_uint d))) as Hd.
  { induction d; simpl; constructor; (by left) || done. }
  unfold str_of_Z. destruct (Z.to_int z) as [d|d]; simpl; [apply Hd|].
  constructor; [by right|apply Hd].
Qed.

Lemma padding_inert z :
  Forall (fun c => inert c = true) (48 :: str_of_Z z ++ [100]).
Proof.
  constructor; [done|]. apply Forall_app. split; [|by constructor].
  eapply Forall_impl; [apply str_of_Z_chars|].
  intros c [Hc| ->]; [|done].
  unfold is_digit in Hc. apply andb_prop in Hc as [H1%N.leb_le H2%N.leb_le].
  unfold inert, brace_l, brace_r, bracket_r.
  destruct (N.eqb_spec c 123), (N.eqb_spec c 125), (N.eqb_spec c 93);
    simpl; lia || done.
Qed.

(** Writing the padding in does not change the placeholders of the
    pattern. *)
Lemma effective_pattern_placeholders a d :
  placeholders d (effective_pattern a) = placeholders d (arg_pattern a).
Proof.
  unfold effective_pattern.
  destruct (negb (arg_digits a =? 0)%Z && contains counter_field (arg_pattern a));
    [|done].
  apply (placeholders_Ins (48 :: str_of_Z (arg_digits a) ++ [100])
           (padding_inert _)).
  replace (u "{counter:0" ++ str_of_Z (arg_digits a) ++ u "d}")
    with (u "{counter"
          ++ (colon :: 48 :: str_of_Z (arg_digits a) ++ [100]) ++ [brace_r]).
  - apply sub_counter_Ins.
  - simpl. by rewrite <- !app_assoc.
Qed.

(** ** Unknown placeholders *)

(** The names the naming context binds. *)
Definition context_keys : list str :=
  [u "counter"; u "orig"; u "ext"; u "date"; u "mtime"; u "prefix"; u "suffix"].

Lemma naming_context_unknown a c o e d m x :
  x ∉ context_keys → naming_context a c o e d m !! x = None.
Proof.
  intros Hx. unfold naming_context.
  repeat (rewrite lookup_insert_ne;
          [|intros <-; apply Hx; unfold context_keys; set_solver]).
  apply lookup_singleton_ne. intros <-. apply Hx.
  unfold context_keys. set_solver.
Qed.

Lemma render_field_unknown expand mapping f x :
  mapping !! x = None →
  x = arg_name f
  ∨ (needs_expanding f = true ∧ ∃ e, expand (format_spec f) = Raise e) →
  ∃ e, render_field resolve format_obj expand mapping f = Raise e.
Proof.
  intros Hx Hf. unfold render_field.
  destruct (positional (arg_name f)); [by eexists|].
  destruct (mapping !! arg_name f) as [v|] eqn:Hv; [|by eexists].
  destruct Hf as [->|[Hexp [e He]]]; [congruence|].
  destruct (resolve v (accessors f) (conversion f)); simpl; [|by eexists].
  rewrite Hexp, He. simpl. by eexists.
Qed.

Lemma build_string_unknown d mapping pattern x :
  x ∈ placeholders d pattern → mapping !! x = None →
  ∃ e, build_string resolve format_obj d mapping pattern = Raise e.
Proof.
  revert pattern. induction d as [|d IH]; intros pattern;
    [by intros []%elem_of_nil|].
  intros (f & Hf & Hx)%placeholders_elem Hnone. simpl.
  assert (∃ e, render_items resolve format_obj
                 (build_string resolve format_obj d mapping) mapping
                 (tokenize pattern).1 = Raise e) as [e ->]; [|by eexists].
  induction (tokenize pattern).1 as [|m l IHl]; [by apply elem_of_nil in Hf|].
  apply elem_of_cons in Hf as [<-|Hf].
  - simpl.
    destruct (render_field_unknown (build_string resolve format_obj d mapping)
                mapping f x Hnone) as [e ->]; [|by eexists].
    destruct Hx as [->|[Hexp Hx]]; [by left|]. right. split; [done|].
    by apply IH.
  - destruct (IHl Hf) as [e He]. destruct m as [t|g]; simpl.
    + rewrite He. by eexists.
    + destruct (render_field _ _ _ _ g); simpl; [|by eexists].
      rewrite He. by eexists.
Qed.


(** ** The target name and the extension *)

(** The target name as the specification words it: the decision is keyed
    on a recognised [ext] placeholder of the pattern. *)
Definition new_name_by_token (pattern new_name_base ext : str) : str :=
  if bool_decide (u "ext" ∈ placeholders 2 pattern)
  then sanitize_filename new_name_base
  else sanitize_filename new_name_base
       ++ (match ext with [] => [] | _ => dot :: ext end).

(** A pattern with an [ext] placeholder holds the text the script looks
    for. *)
Lemma ext_placeholder_contains pattern :
  u "ext" ∈ placeholders 2 pattern → contains (u "{ext") pattern = true.
Proof. intros H. apply contains_true. by apply placeholders_substr in H. Qed.

Lemma plan_file_destination a pattern st p mapping ext base :
  format_map resolve format_obj pattern mapping = Ok base →
  ∃ st',
    plan_file resolve format_obj a pattern st p mapping ext = Next st'
    ∧ ops st' = ops st ++
        [(p, unique_target (world st)
               (joinpath (parent p) (new_name pattern base ext)))].
Proof.
  intros Hfmt. unfold plan_file. rewrite Hfmt.
  destruct (arg_verbose a || negb (arg_apply a)), (arg_apply a); simpl;
    try (by eexists).
  - destruct (FS.rename _ _ _); by eexists.
  - destruct (FS.rename _ _ _); by eexists.
Qed.

(** C5 (amended). For every planned file the recorded destination is
    resolved from the parent directory of the file and its target name.
    The target name is the sanitised expansion alone when the text [{ext]
    occurs anywhere in the pattern, which is the case whenever the pattern
    has an [ext] placeholder; otherwise it is the sanitised expansion
    followed by a dot and the original extension, or by nothing when that
    extension is empty. *)
Theorem extension_kept_unless_pattern_holds_ext_text
    (a : Args) (pattern : str) (st : State) (p : Path)
    (mapping : gmap str Value) (ext base : str) :
  format_map resolve format_obj pattern mapping = Ok base →
  (∃ st',
     plan_file resolve format_obj a pattern st p mapping ext = Next st'
     ∧ ops st' = ops st ++
         [(p, unique_target (world st)
                (joinpath (parent p) (new_name pattern base ext)))])
  ∧ (contains (u "{ext") pattern = true →
     new_name pattern base ext = sanitize_filename base)
  ∧ (u "ext" ∈ placeholders 2 pattern →
     new_name pattern base ext = sanitize_filename base)
  ∧ (contains (u "{ext") pattern = false → ext ≠ [] →
     new_name pattern base ext = sanitize_filename base ++ dot :: ext)
  ∧ (contains (u "{ext") pattern = false → ext = [] →
     new_name pattern base ext = sanitize_filename base).
Proof.
  intros Hfmt. split; [by apply plan_file_destination|].
  unfold new_name. repeat split.
  - by intros ->.
  - intros H%ext_placeholder_contains. by rewrite H.
  - intros -> Hext. by destruct ext.
  - intros -> ->. by rewrite app_nil_r.
Qed.

(** ** Undo *)

(** The test of the undo loop: the destination is there and the source is
    not. *)
Definition revertible (w : World) (item : Path * Path) : bool :=
  FS.exists_ w item.2 && negb (FS.exists_ w item.1).

(** All the paths a saved map names. *)
Definition map_paths (data : list (Path * Path)) : list Path :=
  flat_map (fun item => [item.1; item.2]) data.

Lemma undo_item_skip verbose st item :
  revertible (undo_world st) item = false →
  undo_item verbose st item
  = mkUndoState (undo_world st) (reversed_ops st)
      (undo_out st ++ [MsgUndoSkipped item.2 item.1]).
Proof. unfold revertible, undo_item. by intros ->. Qed.

Lemma undo_item_revert verbose st item :
  revertible (undo_world st) item = true →
  rename_refused (undo_world st) item.2 item.1 = false →
  ∃ nd,
    nodes (undo_world st) !! item.2 = Some nd
    ∧ undo_item verbose st item
      = mkUndoState
          (FS.with_nodes (undo_world st)
             (<[item.1 := nd]> (delete item.2 (nodes (undo_world st)))))
          (reversed_ops st ++ [(item.2, item.1)])
          (undo_out st ++ (if verbose then [MsgRevert item.2 item.1] else [])).
Proof.
  unfold revertible, undo_item. intros Hrev Href. rewrite Hrev.
  apply andb_prop in Hrev as [[nd Hnd]%exists_true _].
  exists nd. split; [done|]. unfold FS.rename. by rewrite Hnd, Href.
Qed.

Lemma undo_item_refused verbose st item :
  revertible (undo_world st) item = true →
  rename_refused (undo_world st) item.2 item.1 = true →
  undo_item verbose st item
  = mkUndoState (undo_world st) (reversed_ops st)
      (undo_out st ++ [MsgUndoFailed item.2 item.1 OSError]).
Proof.
  unfold revertible, undo_item. intros Hrev Href. rewrite Hrev.
  apply andb_prop in Hrev as [[nd Hnd]%exists_true _].
  unfold FS.rename. by rewrite Hnd, Href.
Qed.

(** An item leaves alone every path it does not name, and the refusals. *)
Lemma undo_item_frame verbose st item :
  rename_refused (undo_world (undo_item verbose st item))
  = rename_refused (undo_world st)
  ∧ ∀ q, q ≠ item.1 → q ≠ item.2 →
      nodes (undo_world (undo_item verbose st item)) !! q
      = nodes (undo_world st) !! q.
Proof.
  unfold undo_item.
  destruct (FS.exists_ (undo_world st) item.2
            && negb (FS.exists_ (undo_world st) item.1)); [|done].
  destruct (FS.rename (undo_world st) item.2 item.1) as [w'|e] eqn:Hr; [|done].
  apply rename_Ok in Hr as (nd & _ & _ & Hn & Href & _). simpl.
  split; [done|]. intros q H1 H2.
  by rewrite Hn, lookup_insert_ne, lookup_delete_ne.
Qed.

Lemma undo_loop_frame verbose data st :
  rename_refused (undo_world (undo_loop verbose st data))
  = rename_refused (undo_world st)
  ∧ ∀ q, q ∉ map_paths data →
      nodes (undo_world (undo_loop verbose st data)) !! q
      = nodes (undo_world st) !! q.
Proof.
  revert st. induction data as [|item data IH]; intros st; simpl; [done|].
  destruct (IH (undo_item verbose st item)) as [Href Hfr].
  destruct (undo_item_frame verbose st item) as [Href' Hfr'].
  split; [congruence|]. intros q Hq.
  rewrite Hfr.
  - apply Hfr'; intros ->; apply Hq; [left|right; left].
  - intros Hin. apply Hq. by do 2 right.
Qed.

(** Once an item was handled and nothing was refused, it is not
    revertible any more. *)
Lemma undo_item_settles verbose st item :
  (∀ s d, rename_refused (undo_world st) s d = false) →
  revertible (undo_world (undo_item verbose st item)) item = false.
Proof.
  intros Href.
  destruct (revertible (undo_world st) item) eqn:Hrev.
  - destruct (undo_item_revert verbose st item Hrev (Href _ _))
      as (nd & _ & ->). simpl.
    unfold revertible, FS.exists_. simpl.
    rewrite lookup_insert_eq. simpl. apply andb_false_r.
  - by rewrite undo_item_skip.
Qed.

Lemma revertible_ext w w' item :
  nodes w' !! item.1 = nodes w !! item.1 →
  nodes w' !! item.2 = nodes w !! item.2 →
  revertible w' item = revertible w item.
Proof. unfold revertible, FS.exists_. by intros -> ->. Qed.

Lemma undo_loop_settles verbose data st :
  NoDup (map_paths data) →
  (∀ s d, rename_refused (undo_world st) s d = false) →
  ∀ item, item ∈ data →
    revertible (undo_world (undo_loop verbose st data)) item = false.
Proof.
  revert st. induction data as [|it data IH]; intros st Hnd Href item Hin;
    [by apply elem_of_nil in Hin|].
  simpl in Hnd. apply NoDup_cons in Hnd as [H1 Hnd].
  apply NoDup_cons in Hnd as [H2 Hnd]. simpl.
  destruct (undo_item_frame verbose st it) as [Href' _].
  apply elem_of_cons in Hin as [->|Hin].
  - destruct (undo_loop_frame verbose data (undo_item verbose st it))
      as [_ Hfr].
    rewrite (revertible_ext (undo_world (undo_item verbose st it))).
    + by apply undo_item_settles.
    + apply Hfr. intros Hin. apply H1. by right.
    + by apply Hfr.
  - apply IH; [done| |done]. intros s d. rewrite Href'. apply Href.
Qed.

Lemma undo_loop_all_skipped verbose data st :
  (∀ item, item ∈ data → revertible (undo_world st) item = false) →
  undo_loop verbose st data
  = mkUndoState (undo_world st) (reversed_ops st)
      (undo_out st ++ ((fun item => MsgUndoSkipped item.2 item.1) <$> data)).
Proof.
  revert st. induction data as [|it data IH]; intros st Hall; simpl.
  - rewrite app_nil_r. by destruct st.
  - rewrite undo_item_skip by (apply Hall; left).
    rewrite IH; simpl.
    + by rewrite <- app_assoc.
    + intros item Hin. apply Hall. by right.
Qed.


End Properties.

(** * Closed runs *)

(** The engine with the sample renderer and a [strptime] that reads one
    fixed date. *)
Module SampleRun.

Definition strptime (s : str) : result datetime :=
  if bool_decide (s = u "2023:05:01 12:00:00") then Ok (Datetime 1682942400)
  else Raise ValueError.

Definition sample_run_rename :=
  run_rename strptime SampleRender.resolve SampleRender.format_obj.

Definition sample_main := main strptime SampleRender.resolve SampleRender.format_obj.

Definition sample_process_files :=
  process_files strptime SampleRender.resolve SampleRender.format_obj.

(** Arguments as the command line gives them by default, but for the
    pattern, the start and the mode. *)
Definition args (pattern : string) (start : Z) (apply : bool) : Args :=
  mkArgs (Sample.rel []) (u pattern) [] [] start 0 false apply None None
         false (u "20240101T120000").

Definition with_undo (a : Args) (mapf : Path) : Args :=
  mkArgs (arg_dir a) (arg_pattern a) (arg_prefix a) (arg_suffix a)
         (arg_start a) (arg_digits a) (arg_exif_date a) (arg_apply a)
         (arg_map_file a) (Some mapf) (arg_verbose a) (timestamp_str a).

Definition with_exif_digits (a : Args) (digits : Z) : Args :=
  mkArgs (arg_dir a) (arg_pattern a) (arg_prefix a) (arg_suffix a)
         (arg_start a) digits true (arg_apply a)
         (arg_map_file a) (arg_undo a) (arg_verbose a) (timestamp_str a).

Definition a_jpg : Path := Sample.rel ["a.jpg"%string].
Definition b_jpg : Path := Sample.rel ["b.jpg"%string].
Definition two_files : list (Path * Node) :=
  [(a_jpg, Sample.file 1); (b_jpg, Sample.file 2)].

(** The default place of the map file for [args]. *)
Definition map_json : Path :=
  Sample.rel ["rename_map_20240101T120000.json"%string].

End SampleRun.

Lemma enumerated_check w files :
  NoDup files →
  (∀ p, p ∈ files →
     match nodes w !! p with
     | Some nd => is_dir nd = false
     | None => False
     end) →
  enumerated w files.
Proof.
  intros Hnd Hall. split; [done|]. intros p Hp. specialize (Hall p Hp).
  destruct (nodes w !! p) as [nd|]; [by exists nd|done].
Qed.

Ltac decide_by_computation :=
  match goal with
  | |- ?P => apply (bool_decide_unpack P); vm_compute; exact I
  end.

Ltac enumerated_by_computation :=
  apply enumerated_check;
  [ decide_by_computation
  | let p := fresh "p" in
    let Hp := fresh "Hp" in
    intros p Hp;
    repeat (apply elem_of_cons in Hp as [->|Hp]; [vm_compute; reflexivity|]);
    by apply elem_of_nil in Hp ].

Import SampleRun.

(** ** C1 *)

(** C1, as stated, fails when a destination is not on disk by the time the
    next one is resolved.  In preview mode nothing is renamed, so the
    destination given to the first file is still free for the second, and
    both files get it.  In apply mode the same happens after a rename that
    the system refused. *)
Lemma one_destination_assigned_twice :
  let photo := Sample.rel ["photo.jpg"%string] in
  let w := Sample.world_of two_files in
  let r := sample_run_rename (args "photo" 1 false) [a_jpg; b_jpg] w in
  let w' := Sample.world_locking a_jpg two_files in
  let r' := sample_run_rename (args "photo" 1 true) [a_jpg; b_jpg] w' in
  enumerated w [a_jpg; b_jpg]
  ∧ ops r.2 = [(a_jpg, photo); (b_jpg, photo)]
  ∧ ¬ NoDup (ops r.2).*2
  ∧ enumerated w' [a_jpg; b_jpg]
  ∧ FS.rename w' a_jpg photo = Raise OSError
  ∧ ops r'.2 = [(a_jpg, photo); (b_jpg, photo)]
  ∧ ¬ NoDup (ops r'.2).*2.
Proof.
  intros photo w r w' r'.
  assert (ops r.2 = [(a_jpg, photo); (b_jpg, photo)]) as Hops
    by (vm_compute; reflexivity).
  assert (ops r'.2 = [(a_jpg, photo); (b_jpg, photo)]) as Hops'
    by (vm_compute; reflexivity).
  assert (¬ NoDup [(a_jpg, photo); (b_jpg, photo)].*2) as Hdup.
  { simpl. intros [Hnotin _]%NoDup_cons. apply Hnotin. left. }
  split; [enumerated_by_computation|]. split; [exact Hops|].
  split; [by rewrite Hops|]. split; [enumerated_by_computation|].
  split; [vm_compute; reflexivity|]. split; [exact Hops'|].
  by rewrite Hops'.
Qed.

Lemma applied_destinations_distinct_witness :
  let a := args "photo" 1 true in
  let w := Sample.world_of two_files in
  arg_apply a = true
  ∧ enumerated w [a_jpg; b_jpg]
  ∧ (∀ q d, q ∈ [a_jpg; b_jpg] → rename_refused w q d = false)
  ∧ NoDup (ops (sample_run_rename a [a_jpg; b_jpg] w).2).*2
  ∧ ops (sample_run_rename a [a_jpg; b_jpg] w).2
    = [(a_jpg, Sample.rel ["photo.jpg"%string]);
       (b_jpg, Sample.rel ["photo_1.jpg"%string])].
Proof.
  intros a w.
  assert (enumerated w [a_jpg; b_jpg]) as Henum by enumerated_by_computation.
  assert (∀ q d, q ∈ [a_jpg; b_jpg] → rename_refused w q d = false) as Href
    by (intros; reflexivity).
  split; [reflexivity|]. split; [exact Henum|]. split; [exact Href|].
  split; [|vm_compute; reflexivity].
  exact (applied_destinations_distinct SampleRun.strptime
           SampleRender.resolve SampleRender.format_obj
           a [a_jpg; b_jpg] w eq_refl Henum Href).
Defined.

(** ** C2 *)



(** ** C3 *)


(** ** C4 *)

(** C4, as stated, fails in two ways.  When no file is found the run says
    so and exits, and no count is printed.  And without [--apply] an undo
    file still has its renames carried out: undo mode does not look at the
    flag. *)
Lemma preview_without_files_or_with_undo :
  let a := args "photo" 1 false in
  let w := Sample.world_of [] in
  let a' := with_undo a map_json in
  let w' :=
    Sample.world_of
      [(b_jpg, Sample.file 2);
       (map_json, mkNode false 0 NotAnImage (Some [(a_jpg, b_jpg)]))] in
  arg_apply a = false
  ∧ sample_main a [] w = (Exited 0, w, [MsgNoFiles])
  ∧ (¬ ∃ n, MsgCount n ∈ (sample_main a [] w).2)
  ∧ arg_apply a' = false
  ∧ FS.exists_ w' b_jpg = true
  ∧ FS.exists_ (sample_main a' [b_jpg] w').1.2 b_jpg = false
  ∧ FS.exists_ (sample_main a' [b_jpg] w').1.2 a_jpg = true.
Proof.
  intros a w a' w'. split; [reflexivity|]. split; [reflexivity|].
  split; [|repeat split; vm_compute; reflexivity].
  intros [n Hn]. change ((sample_main a [] w).2) with [MsgNoFiles] in Hn.
  by apply list_elem_of_singleton in Hn.
Qed.

Lemma preview_changes_nothing_witness :
  let a := args "pic_{counter}" 1 false in
  let w := Sample.world_of two_files in
  arg_apply a = false
  ∧ arg_undo a = None
  ∧ sample_main a [a_jpg; b_jpg] w
    = (Returned, w,
       [MsgPlan (u "a.jpg") (u "pic_1.jpg");
        MsgPlan (u "b.jpg") (u "pic_2.jpg");
        MsgDryRun; MsgCount 2])
  ∧ world (sample_run_rename a [a_jpg; b_jpg] w).2 = w.
Proof.
  intros a w.
  destruct (preview_changes_nothing SampleRun.strptime
              SampleRender.resolve SampleRender.format_obj
              a [a_jpg; b_jpg] w eq_refl eq_refl) as (Hmain & Hw & _).
  split; [reflexivity|]. split; [reflexivity|]. split; [|exact Hw].
  unfold sample_main. rewrite Hmain. vm_compute. reflexivity.
Defined.

(** ** C5 *)

(** C5, as stated, fails for a pattern that holds the text of an [ext]
    field without having the field: with escaped braces the pattern has no
    placeholder at all, yet the original extension is not appended. *)
Lemma escaped_ext_text_drops_the_extension :
  let a := args "{{ext}}" 1 false in
  let w := Sample.world_of two_files in
  placeholders 2 (arg_pattern a) = []
  ∧ SampleRender.format_map (arg_pattern a)
      (naming_context a 1 (u "a") (u "jpg") (Datetime 1) (Datetime 1))
    = Ok (u "{ext}")
  ∧ new_name (arg_pattern a) (u "{ext}") (u "jpg") = u "{ext}"
  ∧ new_name_by_token (arg_pattern a) (u "{ext}") (u "jpg") = u "{ext}.jpg"
  ∧ ops (sample_run_rename a [a_jpg] w).2
    = [(a_jpg, Sample.rel ["{ext}"%string])].
Proof. intros a w. repeat split; vm_compute; reflexivity. Qed.

Lemma extension_kept_unless_pattern_holds_ext_text_witness :
  let a := args "pic_{counter}" 1 false in
  let w := Sample.world_of two_files in
  let mapping :=
    naming_context a 1 (u "a") (u "jpg") (Datetime 1) (Datetime 1) in
  SampleRender.format_map (arg_pattern a) mapping = Ok (u "pic_1")
  ∧ contains (u "{ext") (arg_pattern a) = false
  ∧ new_name (arg_pattern a) (u "pic_1") (u "jpg") = u "pic_1.jpg".
Proof.
  intros a w mapping.
  assert (SampleRender.format_map (arg_pattern a) mapping = Ok (u "pic_1"))
    as Hfmt by (vm_compute; reflexivity).
  split; [exact Hfmt|]. split; [reflexivity|].
  destruct (extension_kept_unless_pattern_holds_ext_text
              SampleRender.resolve SampleRender.format_obj
              a (arg_pattern a) (mkState w 1 [] []) a_jpg mapping
              (u "jpg") (u "pic_1") Hfmt) as (_ & _ & _ & Happend & _).
  exact (Happend eq_refl ltac:(discriminate)).
Defined.

(** ** C6 *)


(** ** C7 *)

(** A world with Pillow, in which [a.jpg] carries a date tag that is not
    text and [b.jpg] carries a readable one. *)
Definition exif_world : World :=
  mkWorld
    (list_to_map
       [(a_jpg, mkNode false 7
                  (Exif (Some {[ Pillow.DateTimeOriginal := EOther ]})) None);
        (b_jpg, mkNode false 8
                  (Exif (Some {[ Pillow.DateTime
                                 := EStr (u "2023:05:01 12:00:00") ]})) None)])
    (fun _ _ => false) (fun _ => false) true.

Example exif_date_is_used_when_read :
  get_exif_datetime SampleRun.strptime exif_world b_jpg
  = Ok (Some (Datetime 1682942400)).
Proof. vm_compute. reflexivity. Qed.


(** ** C8 *)



(** * Enumeration and order of the files

    [get_files] and the sort that [main] applies to its result, and [main]
    from the parsed arguments on. *)

Module Order.

(** Python compares sequences item by item; the first difference decides,
    and a proper prefix comes first.  [lt] is the strict order of the
    items. *)
Fixpoint lex_le {A} (lt : A → A → bool) (a b : list A) : bool :=
  match a, b with
  | [], _ => true
  | _ :: _, [] => false
  | x :: a', y :: b' =>
      if lt x y then true
      else if lt y x then false
      else lex_le lt a' b'
  end.

(** [a <= b] and [a < b] on [str]: by code points. *)
Definition str_le (a b : str) : bool := lex_le N.ltb a b.
Definition str_lt (a b : str) : bool := negb (str_le b a).

(** What [pathlib] compares: the anchor, when there is one, then the
    components. *)
Definition cparts (p : Path) : list str :=
  match anchor p with
  | [] => parts p
  | r => r :: parts p
  end.

(** [p <= q] on paths. *)
Definition path_le (p q : Path) : bool := lex_le str_lt (cparts p) (cparts q).

Section Sort.
Context {A K : Type}.
Variable le : K → K → bool.
Variable key : A → K.

(** Put [x] in front of the first item whose key is not smaller. *)
Fixpoint insert_sorted (x : A) (l : list A) : list A :=
  match l with
  | [] => [x]
  | y :: r => if le (key x) (key y) then x :: l else y :: insert_sorted x r
  end.

(** [sorted(l, key=key)] and [l.sort(key=key)]: the stable sort. *)
Fixpoint stable_sort (l : list A) : list A :=
  match l with
  | [] => []
  | x :: r => insert_sorted x (stable_sort r)
  end.

End Sort.

End Order.
Import Order.

Module Enumerate.

Definition comma : N := 44.

(** [s.split(sep)] for a one-character separator. *)
Fixpoint split_on (sep : N) (s : str) : list str :=
  match s with
  | [] => [[]]
  | c :: r =>
      if c =? sep then [] :: split_on sep r
      else match split_on sep r with
           | piece :: pieces => (c :: piece) :: pieces
           | [] => [[c]]
           end
  end.

(** How the files are sorted. *)
Inductive SortBy := by_name | by_mtime | by_ctime.

(** The arguments that select and order the files. *)
Record Selection := mkSelection {
  arg_ext : str;
  arg_recursive : bool;
  arg_sort_by : SortBy;
}.

Section Lower.

(** [str.lower] *)
Variable lower : str → str.

(** The set of extensions [main] builds from [--ext]. *)
Definition parse_exts (ext : str) : gset str :=
  match ext with
  | [] => ∅
  | _ =>
      list_to_set
        ((fun e => lower (strip e))
           <$> filter (fun e => strip e ≠ []) (split_on comma ext))
  end.

(** What [directory.glob('*')] and [directory.rglob('*')] match: the
    entries directly in the directory, or anywhere below it. *)
Definition matches (recursive : bool) (directory p : Path) : Prop :=
  anchor p = anchor directory ∧
  if recursive
  then parts directory `prefix_of` parts p ∧ parts p ≠ parts directory
  else parts p ≠ [] ∧ removelast (parts p) = parts directory.

#[global] Instance matches_dec recursive directory p :
  Decision (matches recursive directory p).
Proof. unfold matches. destruct recursive; apply _. Defined.

(** [Path.is_file] *)
Definition is_file (w : World) (p : Path) : bool :=
  match nodes w !! p with
  | Some nd => negb (is_dir nd)
  | None => false
  end.

(** The test of the extension in [get_files]. *)
Definition ext_selected (exts : gset str) (p : Path) : Prop :=
  exts = ∅ ∨ lstrip_by (N.eqb dot) (lower (suffix p)) ∈ exts.

(** [get_files]: the entries the glob matches, in the order of [sorted],
    of which the regular files with a selected extension are yielded. *)
Definition get_files (w : World) (directory : Path) (exts : gset str)
    (recursive : bool) : list Path :=
  filter (fun p => is_file w p = true ∧ ext_selected exts p)
    (stable_sort path_le id
       (filter (matches recursive directory) (map_to_list (nodes w)).*1)).

(** [p.stat().st_ctime]; the nodes of the world do not record it. *)
Variable st_ctime : Path → Z.

(** The sort of [main].  The keys are computed first; a [stat] that fails
    there is not caught. *)
Definition sort_files (w : World) (sort_by : SortBy) (files : list Path)
  : result (list Path) :=
  match sort_by with
  | by_mtime =>
      keyed ← mapM (fun p => nd ← FS.stat w p; Ok (p, st_mtime nd)) files;
      Ok ((stable_sort Z.leb snd keyed).*1)
  | by_ctime =>
      keyed ← mapM (fun p => nd ← FS.stat w p; Ok (p, st_ctime p)) files;
      Ok ((stable_sort Z.leb snd keyed).*1)
  | by_name => Ok (stable_sort str_le name files)
  end.

Section Main.

Variable strptime : str → result datetime.
Context {PyObj : Type}.
Variable resolve : Value → str → N → result PyObj.
Variable format_obj : PyObj → str → result str.

(** [main] after [parse_args]. *)
Definition main_parsed (sel : Selection) (a : Args) (w : World)
  : Outcome * World * list Msg :=
  match arg_undo a with
  | Some _ => main strptime resolve format_obj a [] w
  | None =>
      let files :=
        get_files w (arg_dir a) (parse_exts (arg_ext sel))
                  (arg_recursive sel) in
      match files with
      | [] => main strptime resolve format_obj a [] w
      | _ =>
          match sort_files w (arg_sort_by sel) files with
          | Ok sorted => main strptime resolve format_obj a sorted w
          | Raise e => (Uncaught e, w, [])
          end
      end
  end.

End Main.
End Lower.
End Enumerate.
Import Enumerate.

(** ** The stable sort *)

Section SortFacts.
Context {A K : Type}.
Variable le : K → K → bool.
Variable key : A → K.

Lemma insert_sorted_Permutation x l : insert_sorted le key x l ≡ₚ x :: l.
Proof.
  induction l as [|y r IH]; simpl; [done|].
  destruct (le (key x) (key y)); [done|].
  rewrite IH. apply Permutation_swap.
Qed.

Lemma stable_sort_Permutation l : stable_sort le key l ≡ₚ l.
Proof.
  induction l as [|x r IH]; simpl; [done|].
  by rewrite insert_sorted_Permutation, IH.
Qed.

Hypothesis le_total : ∀ a b, le a b = true ∨ le b a = true.

Lemma insert_sorted_Sorted x l :
  Sorted (fun a b => le (key a) (key b) = true) l →
  Sorted (fun a b => le (key a) (key b) = true) (insert_sorted le key x l).
Proof.
  induction 1 as [|y r Hr IH Hhd]; simpl.
  - repeat constructor.
  - destruct (le (key x) (key y)) eqn:E.
    + constructor; [by constructor|by constructor].
    + constructor; [done|].
      destruct r as [|z r]; simpl.
      * constructor. destruct (le_total (key x) (key y)); congruence.
      * destruct (le (key x) (key z)).
        -- constructor. destruct (le_total (key x) (key y)); congruence.
        -- constructor. by inversion Hhd.
Qed.

Lemma stable_sort_Sorted l :
  Sorted (fun a b => le (key a) (key b) = true) (stable_sort le key l).
Proof.
  induction l as [|x r IH]; simpl; [constructor|].
  by apply insert_sorted_Sorted.
Qed.

(** Sorting a list that is already in the order [R] leaves items with
    equal keys in the order [R]. *)
Section Ties.
Variable R : A → A → Prop.

Definition by_key_then (a b : A) : Prop :=
  le (key a) (key b) = true ∧ (le (key b) (key a) = true → R a b).

Lemma insert_sorted_ties x l :
  Sorted by_key_then l → Forall (R x) l →
  Sorted by_key_then (insert_sorted le key x l).
Proof.
  induction 1 as [|y r Hr IH Hhd]; intros Hall; simpl.
  - repeat constructor.
  - apply Forall_cons in Hall as [Hxy Hall].
    destruct (le (key x) (key y)) eqn:E.
    + constructor; [by constructor|]. constructor. by split.
    + constructor; [by apply IH|].
      assert (by_key_then y x) as Hyx.
      { split; [|congruence]. destruct (le_total (key x) (key y)); congruence. }
      destruct r as [|z r]; simpl; [by constructor|].
      destruct (le (key x) (key z)); constructor; [done|by inversion Hhd].
Qed.

Lemma stable_sort_ties l :
  StronglySorted R l → Sorted by_key_then (stable_sort le key l).
Proof.
  induction 1 as [|x l Hl IH Hall]; simpl; [constructor|].
  apply insert_sorted_ties; [done|].
  rewrite Forall_forall in *. intros y Hy. apply Hall.
  by rewrite stable_sort_Permutation in Hy.
Qed.

End Ties.

Hypothesis le_refl : ∀ a, le a a = true.
Context `{EqDecision K}.

(** Items with the same key keep their order. *)
Lemma insert_sorted_stable k x l :
  filter (fun a => key a = k) (insert_sorted le key x l)
  = filter (fun a => key a = k) (x :: l).
Proof.
  induction l as [|y r IH]; simpl; [done|].
  destruct (le (key x) (key y)) eqn:E; [done|].
  rewrite !filter_cons, IH, !filter_cons.
  destruct (decide (key y = k)) as [Hy|Hy], (decide (key x = k)) as [Hx|Hx];
    try done.
  rewrite Hx, Hy, le_refl in E. done.
Qed.

Lemma stable_sort_stable k l :
  filter (fun a => key a = k) (stable_sort le key l)
  = filter (fun a => key a = k) l.
Proof.
  induction l as [|x r IH]; simpl; [done|].
  by rewrite insert_sorted_stable, !filter_cons, IH.
Qed.

End SortFacts.

Lemma Sorted_weaken {A} (R S : A → A → Prop) l :
  (∀ x y, R x y → S x y) → Sorted R l → Sorted S l.
Proof.
  intros HRS. induction 1 as [|x l Hl IH Hhd]; constructor; [done|].
  destruct Hhd; constructor. by apply HRS.
Qed.

(** Sorting a list decorated with its keys is sorting by the key. *)
Lemma stable_sort_decorated {A K} (le : K → K → bool) (key : A → K) l :
  (stable_sort le snd ((fun p => (p, key p)) <$> l)).*1 = stable_sort le key l.
Proof.
  assert (∀ x r, insert_sorted le snd (x, key x) ((fun p => (p, key p)) <$> r)
                 = (fun p => (p, key p)) <$> insert_sorted le key x r) as Hins.
  { intros x r. induction r as [|y r IH]; simpl; [done|].
    destruct (le (key x) (key y)); [done|]. simpl. f_equal. apply IH. }
  assert (stable_sort le snd ((fun p => (p, key p)) <$> l)
          = (fun p => (p, key p)) <$> stable_sort le key l) as ->.
  { induction l as [|x r IH]; [done|].
    change (insert_sorted le snd (x, key x)
              (stable_sort le snd ((fun p => (p, key p)) <$> r))
            = (fun p => (p, key p)) <$> insert_sorted le key x (stable_sort le key r)).
    rewrite IH. apply Hins. }
  rewrite <- list_fmap_compose. apply list_fmap_id.
Qed.

(** The orders are total and reflexive. *)
Lemma lex_le_total {A} (lt : A → A → bool) a b :
  lex_le lt a b = true ∨ lex_le lt b a = true.
Proof.
  revert b. induction a as [|x a IH]; intros [|y b]; simpl; auto.
  destruct (lt x y) eqn:Exy; [by left|].
  destruct (lt y x) eqn:Eyx; [by right|]. apply IH.
Qed.

Lemma lex_le_refl {A} (lt : A → A → bool) a :
  (∀ x, lt x x = false) → lex_le lt a a = true.
Proof. intros Hirr. induction a as [|x a IH]; simpl; [done|]. by rewrite Hirr. Qed.

Lemma lex_le_trans {A} (lt : A → A → bool) :
  (∀ x y z, lt x y = true → lt y z = true → lt x z = true) →
  (∀ x y, lt x y = false → lt y x = false → x = y) →
  ∀ a b c, lex_le lt a b = true → lex_le lt b c = true → lex_le lt a c = true.
Proof.
  intros Htrans Htri. induction a as [|x a IH]; intros [|y b] [|z c]; simpl;
    try done.
  destruct (lt x y) eqn:Exy.
  - intros _. destruct (lt y z) eqn:Eyz.
    + intros _. by rewrite (Htrans x y z).
    + destruct (lt z y) eqn:Ezy; [done|].
      rewrite <- (Htri _ _ Eyz Ezy), Exy. done.
  - destruct (lt y x) eqn:Eyx; [done|].
    rewrite <- (Htri _ _ Exy Eyx).
    destruct (lt x z); [done|]. destruct (lt z x); [done|]. apply IH.
Qed.

Lemma lex_le_antisym {A} (lt : A → A → bool) :
  (∀ x y, lt x y = true → lt y x = false) →
  (∀ x y, lt x y = false → lt y x = false → x = y) →
  ∀ a b, lex_le lt a b = true → lex_le lt b a = true → a = b.
Proof.
  intros Hasym Htri. induction a as [|x a IH]; intros [|y b]; simpl; try done.
  destruct (lt x y) eqn:Exy.
  - by rewrite (Hasym _ _ Exy).
  - destruct (lt y x) eqn:Eyx; [done|].
    intros Hab Hba. by rewrite (Htri _ _ Exy Eyx), (IH b).
Qed.

Lemma str_le_trans a b c :
  str_le a b = true → str_le b c = true → str_le a c = true.
Proof.
  apply lex_le_trans.
  - intros x y z. rewrite !N.ltb_lt. lia.
  - intros x y. rewrite !N.ltb_ge. lia.
Qed.

Lemma str_le_antisym a b : str_le a b = true → str_le b a = true → a = b.
Proof.
  apply lex_le_antisym.
  - intros x y. rewrite N.ltb_lt, N.ltb_ge. lia.
  - intros x y. rewrite !N.ltb_ge. lia.
Qed.

Lemma path_le_trans p q r :
  path_le p q = true → path_le q r = true → path_le p r = true.
Proof.
  apply lex_le_trans; unfold str_lt.
  - intros x y z. rewrite !negb_true_iff. intros Hyx Hzy.
    destruct (str_le z x) eqn:Hzx; [|done].
    destruct (lex_le_total N.ltb x y) as [Hxy|Hxy]; [|unfold str_le in *; congruence].
    rewrite (str_le_trans z x y) in Hzy; done.
  - intros x y. rewrite !negb_false_iff. intros Hyx Hxy. by apply str_le_antisym.
Qed.

Lemma str_le_refl a : str_le a a = true.
Proof. apply lex_le_refl, N.ltb_irrefl. Qed.

Lemma path_le_refl p : path_le p p = true.
Proof.
  apply lex_le_refl. intros x. unfold str_lt. by rewrite str_le_refl.
Qed.

Lemma Z_leb_total a b : (a <=? b)%Z = true ∨ (b <=? a)%Z = true.
Proof. rewrite !Z.leb_le. lia. Qed.

(** ** [get_files] *)

Section EnumerationFacts.

Variable lower : str → str.

Lemma is_file_exists w p : is_file w p = true → FS.exists_ w p = true.
Proof. unfold is_file, FS.exists_. by destruct (nodes w !! p). Qed.

Lemma get_files_elem w directory exts recursive p :
  p ∈ get_files lower w directory exts recursive
  ↔ matches recursive directory p
    ∧ is_file w p = true
    ∧ (exts = ∅ ∨ lstrip_by (N.eqb dot) (lower (suffix p)) ∈ exts).
Proof.
  unfold get_files. rewrite list_elem_of_filter.
  rewrite (stable_sort_Permutation path_le id), list_elem_of_filter.
  unfold ext_selected. split.
  - intros [[Hf Hx] [Hm _]]. done.
  - intros (Hm & Hf & Hx). split; [done|]. split; [done|].
    apply list_elem_of_fmap. unfold is_file in Hf.
    destruct (nodes w !! p) as [nd|] eqn:Hnd; [|done].
    exists (p, nd). split; [done|]. by apply elem_of_map_to_list.
Qed.

(** X1. [get_files] yields exactly the regular files that the glob matches
    (directly in the directory, or anywhere below it when recursive) and
    whose extension is selected; with an empty set of extensions that is
    every such file. *)
Theorem get_files_yields_the_selected_files
    (w : World) (directory : Path) (exts : gset str) (recursive : bool)
    (p : Path) :
  p ∈ get_files lower w directory exts recursive
  ↔ matches recursive directory p
    ∧ is_file w p = true
    ∧ (exts = ∅ ∨ lstrip_by (N.eqb dot) (lower (suffix p)) ∈ exts).
Proof. apply get_files_elem. Qed.

Lemma get_files_StronglySorted w directory exts recursive :
  StronglySorted (fun p q => path_le p q = true)
                 (get_files lower w directory exts recursive).
Proof.
  unfold get_files.
  assert (∀ l, StronglySorted (fun p q : Path => path_le p q = true)
                 (stable_sort path_le id l)) as Hsorted.
  { intros l. apply Sorted_StronglySorted.
    - intros x y z. apply path_le_trans.
    - apply (stable_sort_Sorted path_le id). intros a b. apply lex_le_total. }
  generalize (Hsorted (filter (matches recursive directory)
                         (map_to_list (nodes w)).*1)).
  generalize (stable_sort path_le id
                (filter (matches recursive directory)
                   (map_to_list (nodes w)).*1)).
  intros l Hl. induction Hl as [|x l Hl IH Hall]; [constructor|].
  rewrite filter_cons.
  destruct (decide (is_file w x = true ∧ ext_selected lower exts x));
    [|exact IH].
  constructor; [exact IH|]. rewrite Forall_forall in *.
  intros q Hq. apply Hall. by apply list_elem_of_filter in Hq as [_ ?].
Qed.

Lemma get_files_NoDup w directory exts recursive :
  NoDup (get_files lower w directory exts recursive).
Proof.
  unfold get_files. apply NoDup_filter.
  rewrite (stable_sort_Permutation path_le id).
  apply NoDup_filter, NoDup_fst_map_to_list.
Qed.

Lemma get_files_is_file w directory exts recursive p :
  p ∈ get_files lower w directory exts recursive → is_file w p = true.
Proof. unfold get_files. by intros [[? _] _]%list_elem_of_filter. Qed.

(** X2. The files come out in the order of their paths, each one once:
    the order in which the file system lists a directory plays no part. *)
Theorem get_files_sorted_without_duplicates
    (w : World) (directory : Path) (exts : gset str) (recursive : bool) :
  Sorted (fun p q => path_le p q = true)
         (get_files lower w directory exts recursive)
  ∧ NoDup (get_files lower w directory exts recursive).
Proof.
  split.
  - apply StronglySorted_Sorted, get_files_StronglySorted.
  - apply get_files_NoDup.
Qed.

(** ** The extension filter *)

Lemma parse_exts_elem ext e :
  e ∈ parse_exts lower ext
  ↔ ∃ piece, piece ∈ split_on comma ext ∧ strip piece ≠ []
             ∧ e = lower (strip piece).
Proof.
  unfold parse_exts. destruct ext as [|c ext].
  - split; [set_solver|]. intros (piece & Hp & Hne & _). simpl in Hp.
    apply list_elem_of_singleton in Hp as ->. done.
  - rewrite elem_of_list_to_set, list_elem_of_fmap.
    split.
    + intros (piece & -> & [Hne Hp]%list_elem_of_filter). by exists piece.
    + intros (piece & Hp & Hne & ->). exists piece. split; [done|].
      by apply list_elem_of_filter.
Qed.

(** X3. An [--ext] value made of commas and blanks only selects every
    file: its pieces are all dropped, and the empty set of extensions
    means no filter. *)
Theorem blank_extension_list_selects_every_file
    (ext : str) (w : World) (directory : Path) (recursive : bool) (p : Path)
    (Hblank : Forall (fun piece => strip piece = []) (split_on comma ext)) :
  p ∈ get_files lower w directory (parse_exts lower ext) recursive
  ↔ matches recursive directory p ∧ is_file w p = true.
Proof.
  assert (parse_exts lower ext = ∅) as ->.
  { apply leibniz_equiv. apply elem_of_equiv_empty. intros e.
    rewrite parse_exts_elem. intros (piece & Hp & Hne & _).
    rewrite Forall_forall in Hblank. by apply Hne, Hblank. }
  rewrite get_files_elem. split; [tauto|]. intros [? ?]. split; [done|]. split; [done|by left].
Qed.

(** X4. Under a filter that names at least one extension, a file without
    an extension is never selected: no piece of [--ext] is kept as the
    empty string.  ([str.lower] maps the empty string, and nothing else, to
    the empty string.) *)
Theorem filter_skips_files_without_extension
    (ext : str) (w : World) (directory : Path) (recursive : bool) (p : Path)
    (Hlower : ∀ x, lower x = [] ↔ x = [])
    (Hfilter : parse_exts lower ext ≠ ∅)
    (Hsuffix : suffix p = []) :
  p ∉ get_files lower w directory (parse_exts lower ext) recursive.
Proof.
  rewrite get_files_elem. intros (_ & _ & [Hempty|Hin]); [done|].
  rewrite Hsuffix in Hin.
  rewrite (proj2 (Hlower []) eq_refl) in Hin. simpl in Hin.
  apply parse_exts_elem in Hin as (piece & _ & Hne & Heq).
  symmetry in Heq. by apply (proj1 (Hlower _)) in Heq.
Qed.

Section Sorting.

Variable st_ctime : Path → Z.

(** ** The sort of [main] *)

Lemma mapM_Ok {A B} (f : A → result B) (g : A → B) (l : list A) :
  (∀ x, x ∈ l → f x = Ok (g x)) → mapM f l = Ok (g <$> l).
Proof.
  induction l as [|x l IH]; intros Hf; [done|].
  simpl. rewrite (Hf x) by left. simpl.
  rewrite IH by (intros y Hy; apply Hf; by right). done.
Qed.

(** The modification time [p.stat().st_mtime] of an existing path. *)
Definition mtime_of (w : World) (p : Path) : Z :=
  from_option st_mtime 0%Z (nodes w !! p).

(** The order each [--sort-by] asks for. *)
Definition in_order (w : World) (sort_by : SortBy) (p q : Path) : Prop :=
  match sort_by with
  | by_name => str_le (name p) (name q) = true
  | by_mtime => (mtime_of w p ≤ mtime_of w q)%Z
  | by_ctime => (st_ctime p ≤ st_ctime q)%Z
  end.

Definition tied (w : World) (sort_by : SortBy) (p q : Path) : Prop :=
  in_order w sort_by p q ∧ in_order w sort_by q p.

#[global] Instance in_order_dec w sort_by p q : Decision (in_order w sort_by p q).
Proof. destruct sort_by; simpl; apply _. Defined.

#[global] Instance tied_dec w sort_by p q : Decision (tied w sort_by p q).
Proof. unfold tied. apply _. Defined.

Lemma sort_files_by_key w sort_by files :
  (∀ p, p ∈ files → FS.exists_ w p = true) →
  sort_files st_ctime w sort_by files
  = Ok (match sort_by with
        | by_name => stable_sort str_le name files
        | by_mtime => stable_sort Z.leb (mtime_of w) files
        | by_ctime => stable_sort Z.leb st_ctime files
        end).
Proof.
  intros Hex. destruct sort_by; simpl.
  - done.
  - rewrite (mapM_Ok _ (fun p => (p, mtime_of w p))).
    + simpl. by rewrite stable_sort_decorated.
    + intros p Hp. apply Hex in Hp. unfold FS.exists_, FS.stat, mtime_of in *.
      by destruct (nodes w !! p).
  - rewrite (mapM_Ok _ (fun p => (p, st_ctime p))).
    + simpl. by rewrite stable_sort_decorated.
    + intros p Hp. apply Hex in Hp. unfold FS.exists_, FS.stat in *.
      by destruct (nodes w !! p).
Qed.


(** ** [main] from the parsed arguments on *)

Section MainParsed.

Variable strptime : str → result datetime.
Context {PyObj : Type}.
Variable resolve : Value → str → N → result PyObj.
Variable format_obj : PyObj → str → result str.


End MainParsed.

End Sorting.

End EnumerationFacts.

(** * What a run does to the other files *)

(** The entries of the file system, without their names. *)
Definition contents (w : World) : list Node := (map_to_list (nodes w)).*2.

(** A rename onto a free name moves an entry and loses none. *)
Lemma rename_contents w src dst w' :
  FS.rename w src dst = Ok w' → FS.exists_ w dst = false →
  contents w' ≡ₚ contents w.
Proof.
  intros (nd & Hsrc & _ & Hn & _)%rename_Ok Hdst%exists_false.
  unfold contents. rewrite Hn.
  rewrite map_to_list_insert
    by (apply lookup_delete_None; by right).
  rewrite <- (map_to_list_delete (nodes w) src nd Hsrc). done.
Qed.

Lemma undo_item_contents verbose st item :
  contents (undo_world (undo_item verbose st item)) ≡ₚ contents (undo_world st).
Proof.
  unfold undo_item.
  destruct (FS.exists_ (undo_world st) item.2
            && negb (FS.exists_ (undo_world st) item.1)) eqn:E; [|done].
  destruct (FS.rename (undo_world st) item.2 item.1) as [w'|e] eqn:Hr; [|done].
  simpl. apply andb_prop in E as [_ E]. apply negb_true_iff in E.
  by apply (rename_contents _ _ _ _ Hr).
Qed.

Lemma undo_loop_contents verbose data st :
  contents (undo_world (undo_loop verbose st data)) ≡ₚ contents (undo_world st).
Proof.
  revert st. induction data as [|item data IH]; intros st; [done|].
  change (undo_loop verbose st (item :: data))
    with (undo_loop verbose (undo_item verbose st item) data).
  rewrite IH. apply undo_item_contents.
Qed.

Section EngineFacts.

Variable strptime : str → result datetime.
Context {PyObj : Type}.
Variable resolve : Value → str → N → result PyObj.
Variable format_obj : PyObj → str → result str.

(** The ways a turn can go: the file is skipped after a failed [stat], the
    pattern fails, the file is planned only, renamed, or refused. *)
Ltac turn_of a pattern st p :=
  let Hex := fresh "Hex" in
  let Hpl := fresh "Hpl" in
  let e := fresh "e" in
  let Heq := fresh "Heq" in
  destruct (process_file_cases strptime resolve format_obj a pattern st p)
    as [[Hex [e Heq]]|[Hex Hpl]];
  [ rewrite Heq
  | destruct Hpl as [msg Hmsg|target Happly Hfresh|target w' Happly Hfresh Hren
                     |target e Happly Hfresh Hren] ].

(** An invariant of the turns over the files of the list is an invariant of
    the loop. *)
Lemma process_files_invariant_in (P : State → Prop) a pattern files st :
  P st →
  (∀ st p, p ∈ files → P st →
     P (turn_state (process_file strptime resolve format_obj a pattern st p))) →
  P (turn_state (process_files strptime resolve format_obj a pattern st files)).
Proof.
  revert st. induction files as [|p files IH]; intros st Hst Hstep; simpl;
    [done|].
  pose proof (Hstep st p ltac:(left) Hst) as H.
  destruct (process_file strptime resolve format_obj a pattern st p);
    simpl in *; [|done].
  apply IH; [done|]. intros st' q Hq. apply Hstep. by right.
Qed.

Lemma process_files_contents a pattern files st :
  contents (world (turn_state
              (process_files strptime resolve format_obj a pattern st files)))
  ≡ₚ contents (world st).
Proof.
  apply (process_files_invariant strptime resolve format_obj
           (fun s => contents (world s) ≡ₚ contents (world st))); [done|].
  intros s p Hs. turn_of a pattern s p; simpl; try done.
  by rewrite (rename_contents _ _ _ _ Hren Hfresh).
Qed.


Lemma process_files_frame a pattern files st q nd :
  nodes (world st) !! q = Some nd → q ∉ files →
  nodes (world (turn_state
           (process_files strptime resolve format_obj a pattern st files))) !! q
  = Some nd.
Proof.
  intros Hq Hnotin.
  apply (process_files_invariant_in
           (fun s => nodes (world s) !! q = Some nd)); [done|].
  intros s p Hp Hs. turn_of a pattern s p; simpl; try done.
  apply rename_Ok in Hren as (nd' & _ & _ & -> & _).
  apply exists_false in Hfresh.
  rewrite lookup_insert_ne by congruence.
  rewrite lookup_delete_ne by (intros ->; done). done.
Qed.

(** X8. A rename run leaves alone every file that is not in its list:
    whatever exists beside the files to rename keeps its name and its
    entry, but for the map file that the run writes. *)
Theorem rename_run_leaves_other_files_alone
    (a : Args) (files : list Path) (w : World) (q : Path) (nd : Node)
    (Hundo : arg_undo a = None)
    (Hq : nodes w !! q = Some nd)
    (Hother : q ∉ files)
    (Hmap : q ≠ map_file_of a) :
  nodes (main strptime resolve format_obj a files w).1.2 !! q = Some nd.
Proof.
  unfold main. rewrite Hundo. simpl. unfold run_rename.
  destruct files as [|p0 files]; [done|].
  pose proof (process_files_frame a (effective_pattern a) (p0 :: files)
                (mkState w (arg_start a) [] []) q nd Hq Hother) as Hfr.
  destruct (process_files _ _ _ _ _ _ (p0 :: files)) as [st|code st];
    simpl in Hfr; [|done].
  destruct (arg_apply a); [|done].
  unfold FS.write_map.
  destruct (write_refused (world st) (map_file_of a)); [done|].
  simpl. by rewrite lookup_insert_ne.
Qed.


(** ** Apply, then undo *)

Lemma elem_of_map_paths q data :
  q ∈ map_paths data ↔ q ∈ data.*1 ∨ q ∈ data.*2.
Proof.
  induction data as [|[p t] data IH]; simpl.
  - rewrite !elem_of_nil. tauto.
  - rewrite !elem_of_cons, IH. tauto.
Qed.

(** In apply mode, when nothing is refused, the loop moves the files of
    its list, in order, to the destinations it records, up to the end of
    the list or to the file at which it exits.  When no destination is the
    old name of a file of the list, the file system after the loop is the
    one before it with each of these files under its new name. *)
Lemma process_files_moves_done a pattern files st :
  arg_apply a = true →
  NoDup files →
  (∀ q, q ∈ files → FS.exists_ (world st) q = true) →
  (∀ s d, rename_refused (world st) s d = false) →
  ∃ new rest,
    ops (turn_state
           (process_files strptime resolve format_obj a pattern st files))
    = ops st ++ new
    ∧ files = new.*1 ++ rest
    ∧ (∀ st', process_files strptime resolve format_obj a pattern st files
              = Next st' → rest = [])
    ∧ (∀ code st', process_files strptime resolve format_obj a pattern st files
                   = Exit code st' → code = 1%Z ∧ rest ≠ [])
    ∧ rename_refused
        (world (turn_state
                  (process_files strptime resolve format_obj a pattern st files)))
      = rename_refused (world st)
    ∧ write_refused
        (world (turn_state
                  (process_files strptime resolve format_obj a pattern st files)))
      = write_refused (world st)
    ∧ ((∀ t, t ∈ new.*2 → t ∉ files) →
       (∀ p t, (p, t) ∈ new →
          nodes (world (turn_state
                   (process_files strptime resolve format_obj a pattern st
                      files))) !! p = None
          ∧ nodes (world (turn_state
                     (process_files strptime resolve format_obj a pattern st
                        files))) !! t = nodes (world st) !! p
          ∧ nodes (world st) !! t = None)
       ∧ (∀ q, q ∉ new.*1 → q ∉ new.*2 →
            nodes (world (turn_state
                     (process_files strptime resolve format_obj a pattern st
                        files))) !! q = nodes (world st) !! q)).
Proof.
  intros Happ. revert st.
  induction files as [|p files IH]; intros st Hnd Hexist Href.
  - exists [], []. simpl. rewrite app_nil_r.
    split; [done|]. split; [done|]. split; [done|]. split; [done|].
    split; [done|]. split; [done|].
    intros _. split; [by intros p t Hp%elem_of_nil|done].
  - simpl. apply NoDup_cons in Hnd as [Hp Hnd].
    assert (FS.exists_ (world st) p = true) as Hpex by (apply Hexist; left).
    turn_of a pattern st p.
    + congruence.
    + exists [], (p :: files). simpl. rewrite app_nil_r.
      split; [done|]. split; [done|]. split; [done|].
      split; [by intros code st' [= <- _]|].
      split; [done|]. split; [done|].
      intros _. split; [by intros p0 t Hp0%elem_of_nil|done].
    + congruence.
    + destruct (rename_Ok _ _ _ _ Hren) as (nd & Hsrc & _ & Hn & Hrr & Hwr & _).
      apply exists_false in Hfresh.
      set (st1 := mkState w' (counter st + 1) (ops st ++ [(p, target)])
                    (out st ++ (if arg_verbose a
                                then [MsgPlan (name p) (name target)]
                                else []))) in *.
      assert (∀ q, q ∈ files → FS.exists_ (world st1) q = true) as Hexist1.
      { intros q Hq. apply (rename_exists_other _ _ _ _ _ Hren).
        - intros ->. by apply Hp.
        - apply Hexist. by right. }
      assert (∀ s d, rename_refused (world st1) s d = false) as Href1.
      { intros s d. simpl. rewrite Hrr. apply Href. }
      destruct (IH st1 Hnd Hexist1 Href1)
        as (new' & rest & Hops & Hsplit & Hnext & Hexit & Hrr' & Hwr' & Hmoved).
      set (T := process_files strptime resolve format_obj a pattern st1 files)
        in *.
      simpl in Hops, Hrr', Hwr', Hmoved.
      exists ((p, target) :: new'), rest.
      split; [by rewrite Hops, <- app_assoc|].
      split; [by rewrite fmap_cons, Hsplit|].
      split; [done|]. split; [done|].
      split; [congruence|]. split; [congruence|].
      intros Htargets.
      assert (∀ q, q ∈ new'.*1 → q ∈ files) as Hsub.
      { intros q Hq. rewrite Hsplit. apply elem_of_app. by left. }
      assert (target ≠ p ∧ target ∉ files) as [Htp Htf].
      { specialize (Htargets target ltac:(left)).
        split; intros H; apply Htargets; [by subst; left|by right]. }
      assert (∀ t, t ∈ new'.*2 → t ≠ p ∧ t ∉ files) as Hnew'.
      { intros t Ht. specialize (Htargets t ltac:(by right)).
        split; intros H; apply Htargets; [by subst; left|by right]. }
      destruct Hmoved as [Hop Hfr].
      { intros t Ht. by apply Hnew'. }
      assert (target ∉ new'.*2) as Htn.
      { intros ([p0 t0] & -> & Hin)%list_elem_of_fmap_1.
        destruct (Hop _ _ Hin) as (_ & _ & Hnone). simpl in Hnone.
        by rewrite Hn, lookup_insert_eq in Hnone. }
      assert (p ∉ new'.*2) as Hpn.
      { intros Hin. by apply Hnew' in Hin as [? _]. }
      assert (p ∉ new'.*1) as Hpd by (intros Hin; by apply Hp, Hsub).
      assert (target ∉ new'.*1) as Htd by (intros Hin; by apply Htf, Hsub).
      split.
      * intros p0 t0 [[= -> ->]|Hin]%elem_of_cons.
        -- rewrite !Hfr by done.
           rewrite Hn, lookup_insert_eq, lookup_insert_ne by done.
           by rewrite lookup_delete_eq.
        -- destruct (Hop _ _ Hin) as (H1 & H2 & H3).
           assert (p0 ∈ files) as Hp0.
           { apply Hsub. by apply (list_elem_of_fmap_2 fst) in Hin. }
           assert (t0 ∈ new'.*2) as Ht0
             by (by apply (list_elem_of_fmap_2 snd) in Hin).
           destruct (Hnew' _ Ht0) as [Ht0p Ht0f].
           split; [done|]. rewrite H2.
           rewrite Hn in H3 |- *.
           apply lookup_insert_None in H3 as [H3 _].
           rewrite lookup_delete_ne in H3 by done.
           rewrite lookup_insert_ne by (intros ->; done).
           by rewrite lookup_delete_ne by (intros ->; done).
      * intros q Hq1 Hq2.
        rewrite fmap_cons in Hq1, Hq2. simpl in Hq1, Hq2.
        apply not_elem_of_cons in Hq1 as [Hqp Hqf].
        apply not_elem_of_cons in Hq2 as [Hqt Hqn].
        rewrite Hfr by done.
        rewrite Hn, lookup_insert_ne by done.
        by rewrite lookup_delete_ne.
    + exfalso.
      destruct (rename_succeeds (world st) p target Hpex) as [w' Hw'].
      * apply Href.
      * congruence.
Qed.

Lemma process_files_moves a pattern files st st' :
  arg_apply a = true →
  NoDup files →
  (∀ q, q ∈ files → FS.exists_ (world st) q = true) →
  (∀ s d, rename_refused (world st) s d = false) →
  process_files strptime resolve format_obj a pattern st files = Next st' →
  ∃ new,
    ops st' = ops st ++ new ∧ new.*1 = files
    ∧ rename_refused (world st') = rename_refused (world st)
    ∧ write_refused (world st') = write_refused (world st)
    ∧ ((∀ t, t ∈ new.*2 → t ∉ files) →
       (∀ p, p ∈ files → nodes (world st') !! p = None)
       ∧ (∀ p t, (p, t) ∈ new →
            nodes (world st') !! t = nodes (world st) !! p)
       ∧ (∀ t, t ∈ new.*2 → nodes (world st) !! t = None)
       ∧ (∀ q, q ∉ files → q ∉ new.*2 →
            nodes (world st') !! q = nodes (world st) !! q)).
Proof.
  intros Happ Hnd Hexist Href Hrun.
  destruct (process_files_moves_done a pattern files st Happ Hnd Hexist Href)
    as (new & rest & Hops & Hsplit & Hnext & _ & Hrr & Hwr & Hmoved).
  rewrite Hrun in Hops, Hrr, Hwr, Hmoved. simpl in Hops, Hrr, Hwr, Hmoved.
  rewrite (Hnext st' Hrun), app_nil_r in Hsplit.
  exists new. split; [done|]. split; [done|]. split; [done|]. split; [done|].
  intros Htargets. destruct (Hmoved Htargets) as [Hop Hfr].
  split; [|split; [|split]].
  - intros p Hp. rewrite Hsplit in Hp.
    apply list_elem_of_fmap_1 in Hp as ([p0 t0] & -> & Hin).
    by destruct (Hop _ _ Hin) as (? & _).
  - intros p t Hin. by destruct (Hop _ _ Hin) as (_ & ? & _).
  - intros t ([p0 t0] & -> & Hin)%list_elem_of_fmap_1.
    by destruct (Hop _ _ Hin) as (_ & _ & ?).
  - intros q Hq1 Hq2. apply Hfr; [by rewrite <- Hsplit|done].
Qed.

(** The undo loop over a map whose destinations are all there and whose
    sources are all free puts every destination back. *)
Lemma undo_loop_reverts verbose data st :
  NoDup data.*1 → NoDup data.*2 →
  (∀ s d, rename_refused (undo_world st) s d = false) →
  (∀ p t, (p, t) ∈ data →
     nodes (undo_world st) !! p = None
     ∧ is_Some (nodes (undo_world st) !! t)) →
  (∀ p t, (p, t) ∈ data →
     nodes (undo_world (undo_loop verbose st data)) !! p
     = nodes (undo_world st) !! t)
  ∧ (∀ t, t ∈ data.*2 →
       nodes (undo_world (undo_loop verbose st data)) !! t = None)
  ∧ reversed_ops (undo_loop verbose st data)
    = reversed_ops st ++ ((fun op => (op.2, op.1)) <$> data).
Proof.
  revert st. induction data as [|[p t] data IH]; intros st Hnd1 Hnd2 Href Hpre.
  - simpl. rewrite app_nil_r.
    split; [by intros p t Hp%elem_of_nil|].
    split; [by intros t Ht%elem_of_nil|done].
  - simpl in Hnd1, Hnd2.
    apply NoDup_cons in Hnd1 as [Hp Hnd1]. apply NoDup_cons in Hnd2 as [Ht Hnd2].
    destruct (Hpre p t ltac:(left)) as [Hpfree [nd Htnd]].
    assert (revertible (undo_world st) (p, t) = true) as Hrev.
    { unfold revertible, FS.exists_. simpl. by rewrite Hpfree, Htnd. }
    destruct (undo_item_revert verbose st (p, t) Hrev (Href _ _))
      as (nd' & Hnd' & Hitem).
    simpl in Hnd', Hitem. rewrite Htnd in Hnd'. injection Hnd' as <-.
    change (undo_loop verbose st ((p, t) :: data))
      with (undo_loop verbose (undo_item verbose st (p, t)) data).
    set (st1 := undo_item verbose st (p, t)) in *.
    assert (nodes (undo_world st1)
            = <[p := nd]> (delete t (nodes (undo_world st)))) as Hn
      by (by rewrite Hitem).
    assert (∀ p' t', (p', t') ∈ data →
              p' ≠ p ∧ p' ≠ t ∧ t' ≠ p ∧ t' ≠ t) as Hne.
    { intros p' t' Hin.
      destruct (Hpre p' t' ltac:(by right)) as [Hp' [nd' Ht']].
      repeat split; intros ->.
      - apply Hp. by apply (list_elem_of_fmap_2 fst) in Hin.
      - congruence.
      - congruence.
      - apply Ht. by apply (list_elem_of_fmap_2 snd) in Hin. }
    destruct (IH st1) as (Ha & Hb & Hc); [done|done| | |].
    { intros s d. rewrite Hitem. simpl. apply Href. }
    { intros p' t' Hin.
      destruct (Hne _ _ Hin) as (H1 & H2 & H3 & H4).
      destruct (Hpre p' t' ltac:(by right)) as [Hp' Ht'].
      rewrite !Hn. rewrite !lookup_insert_ne by done.
      rewrite !lookup_delete_ne by done. done. }
    destruct (undo_loop_frame verbose data st1) as [_ Hfr].
    assert ((p ∉ map_paths data) ∧ (t ∉ map_paths data)) as [Hpm Htm].
    { split; rewrite elem_of_map_paths;
        intros [Hin|Hin]; try done;
        apply list_elem_of_fmap_1 in Hin as ([p' t'] & -> & Hin);
        destruct (Hne _ _ Hin) as (H1 & H2 & H3 & H4); done. }
    split; [|split].
    + intros p0 t0 [[= -> ->]|Hin]%elem_of_cons.
      * rewrite (Hfr _ Hpm), Hn. by rewrite lookup_insert_eq.
      * rewrite (Ha _ _ Hin), Hn.
        destruct (Hne _ _ Hin) as (H1 & H2 & H3 & H4).
        rewrite lookup_insert_ne by done. by rewrite lookup_delete_ne.
    + intros t0 [->|Hin]%elem_of_cons; [|by apply Hb]. simpl.
      rewrite (Hfr _ Htm), Hn.
      rewrite lookup_insert_ne by congruence. apply lookup_delete_eq.
    + rewrite Hc, Hitem. simpl. by rewrite <- app_assoc.
Qed.

(** X10. Undo after apply is a round trip.  Take an apply run over
    enumerated files that reaches its end and saves its map, with no
    rename refused, and suppose no destination it recorded is the old name
    of a file of the run, nor the map file.  Then an undo run of the saved
    map puts every file back: it ends with exit code 0, reverts every
    operation, and leaves the file system as it was before the apply run,
    but for the map file, which stays. *)
Theorem undo_after_apply_restores_the_files
    (a a' : Args) (files : list Path) (w : World) (st : State)
    (Happ : arg_apply a = true)
    (Henum : enumerated w files)
    (Href : ∀ s d, rename_refused w s d = false)
    (Hwr : write_refused w (map_file_of a) = false)
    (Hrun : run_rename strptime resolve format_obj a files w = (Returned, st))
    (Hmapf : map_file_of a ∉ files)
    (Hdst : ∀ t, t ∈ (ops st).*2 → (t ∉ files) ∧ t ≠ map_file_of a) :
  (run_undo a' (map_file_of a) (world st)).1 = Exited 0
  ∧ nodes (undo_world (run_undo a' (map_file_of a) (world st)).2)
    = <[map_file_of a := mkNode false 0 NotAnImage (Some (ops st))]> (nodes w)
  ∧ reversed_ops (run_undo a' (map_file_of a) (world st)).2
    = (fun op => (op.2, op.1)) <$> ops st.
Proof.
  destruct Henum as [Hnd Hfiles].
  assert (∀ q, q ∈ files → FS.exists_ w q = true) as Hexist.
  { intros q Hq. destruct (Hfiles q Hq) as (nd & Hq' & _).
    apply exists_true. by eexists. }
  unfold run_rename in Hrun. destruct files as [|p0 files']; [done|].
  set (files := p0 :: files') in *.
  set (st0 := mkState w (arg_start a) [] []) in *.
  pose proof (process_files_distinct strptime resolve format_obj a
                (effective_pattern a) files st0 Happ Hnd Hexist
                (fun q d _ => Href q d) NoDup_nil_2
                ltac:(by intros d Hd%elem_of_nil)) as Hdistinct.
  destruct (process_files strptime resolve format_obj a (effective_pattern a)
              st0 files) as [s|code s] eqn:Hloop; [|done].
  destruct (process_files_moves a (effective_pattern a) files st0 s
              Happ Hnd Hexist Href Hloop)
    as (new & Hops & Hfst & Hrr & Hwr' & Hmoved).
  simpl in Hops, Hrr, Hwr', Hmoved, Hdistinct. subst new.
  rewrite Happ in Hrun. unfold FS.write_map in Hrun.
  rewrite Hwr', Hwr in Hrun. injection Hrun as <-. simpl in *.
  destruct Hmoved as (Hi & Hii & Hiii & Hiv).
  { intros t Ht. by apply Hdst. }
  set (mapf := map_file_of a) in *.
  set (mapnode := mkNode false 0 NotAnImage (Some (ops s))) in *.
  unfold run_undo, FS.exists_. simpl.
  rewrite lookup_insert_eq. simpl.
  set (w1 := FS.with_nodes (world s) (<[mapf := mapnode]> (nodes (world s)))).
  destruct (undo_loop_reverts (arg_verbose a') (ops s) (mkUndoState w1 [] []))
    as (Ha & Hb & Hc); simpl.
  { by rewrite Hfst. }
  { done. }
  { intros src d. rewrite Hrr. apply Href. }
  { intros p t Hin.
    assert (p ∈ files) as Hp
      by (rewrite <- Hfst; by apply (list_elem_of_fmap_2 fst) in Hin).
    assert (t ∈ (ops s).*2) as Ht by (by apply (list_elem_of_fmap_2 snd) in Hin).
    destruct (Hdst t Ht) as [_ Htm].
    rewrite !lookup_insert_ne by (try done; intros ->; done).
    split; [by apply Hi|].
    rewrite (Hii _ _ Hin). apply exists_true. by apply Hexist. }
  simpl in Ha, Hb, Hc.
  split; [done|]. split; [|done].
  destruct (undo_loop_frame (arg_verbose a') (ops s) (mkUndoState w1 [] []))
    as [_ Hfr]. simpl in Hfr.
  apply map_eq. intros q.
  destruct (decide (q = mapf)) as [->|Hqm].
  - rewrite lookup_insert_eq, Hfr; [by rewrite lookup_insert_eq|].
    rewrite elem_of_map_paths, Hfst. intros [Hin|Hin]; [done|].
    by apply Hdst in Hin as [_ ?].
  - rewrite lookup_insert_ne by done.
    destruct (decide (q ∈ files)) as [Hqf|Hqf].
    + rewrite <- Hfst in Hqf.
      apply list_elem_of_fmap_1 in Hqf as ([p t] & -> & Hin). simpl.
      assert (t ∈ (ops s).*2) as Ht
        by (by apply (list_elem_of_fmap_2 snd) in Hin).
      destruct (Hdst t Ht) as [_ Htm].
      rewrite (Ha _ _ Hin). rewrite lookup_insert_ne by done.
      by apply Hii.
    + destruct (decide (q ∈ (ops s).*2)) as [Hqt|Hqt].
      * rewrite (Hb _ Hqt). symmetry. by apply Hiii.
      * rewrite Hfr.
        -- rewrite lookup_insert_ne by done. by apply Hiv.
        -- rewrite elem_of_map_paths, Hfst. tauto.
Qed.


Lemma process_files_saves_no_map a pattern files st :
  (∀ f, MsgMapSaved f ∉ out st) →
  ∀ f, MsgMapSaved f
       ∉ out (turn_state
                (process_files strptime resolve format_obj a pattern st files)).
Proof.
  intros Hst.
  apply (process_files_invariant strptime resolve format_obj
           (fun s => ∀ f, MsgMapSaved f ∉ out s)); [done|].
  clear st Hst. intros st p Hst.
  turn_of a pattern st p; simpl; intros f;
    rewrite ?elem_of_app, ?list_elem_of_singleton; intros H.
  - destruct H as [H|[=]]. by apply Hst in H.
  - destruct H as [H|H]; [by apply Hst in H|]. by subst msg.
  - destruct H as [H|[=]]. by apply Hst in H.
  - destruct H as [H|H]; [by apply Hst in H|].
    destruct (arg_verbose a); [|by apply elem_of_nil in H].
    by apply list_elem_of_singleton in H.
  - destruct H as [H|[H|[=]]]; [by apply Hst in H|].
    destruct (arg_verbose a); [|by apply elem_of_nil in H].
    by apply list_elem_of_singleton in H.
Qed.


(** ** The date of a picture *)

(** The date a tag holds, when it holds text that [strptime] reads. *)
Definition tag_date (tags : gmap N ExifVal) (tagid : N) : option datetime :=
  match tags !! tagid with
  | Some (EStr s) =>
      match strptime s with Ok d => Some d | Raise _ => None end
  | _ => None
  end.

(** X13. Of the two date tags, [DateTimeOriginal] comes first: its date is
    returned whenever it can be read, whatever [DateTime] holds; the date
    of [DateTime] is returned only when [DateTimeOriginal] is missing or
    unreadable, and no date when neither can be read. *)
Theorem exif_original_date_comes_first
    (w : World) (p : Path) (nd : Node) (tags : gmap N ExifVal)
    (Hpil : PIL_AVAILABLE w = true)
    (Hnd : nodes w !! p = Some nd)
    (Himg : image nd = Exif (Some tags)) :
  get_exif_datetime strptime w p
  = Ok (match tag_date tags Pillow.DateTimeOriginal with
        | Some d => Some d
        | None => tag_date tags Pillow.DateTime
        end).
Proof.
  unfold get_exif_datetime, Pillow.open. rewrite Hpil, Hnd, Himg. simpl.
  unfold tag_date. case_bool_decide as Hdom.
  - apply dom_empty_inv_L in Hdom as ->. by rewrite !lookup_empty.
  - unfold exif_candidate.
    change (Pillow.DateTimeOriginal =? 0) with false.
    change (Pillow.DateTime =? 0) with false. cbv iota.
    destruct (tags !! Pillow.DateTimeOriginal) as [[s|]|]; simpl.
    + destruct (strptime s) as [d|e]; simpl; [done|].
      destruct (tags !! Pillow.DateTime) as [[s'|]|]; simpl; try done.
      by destruct (strptime s').
    + destruct (tags !! Pillow.DateTime) as [[s'|]|]; simpl; try done.
      by destruct (strptime s').
    + destruct (tags !! Pillow.DateTime) as [[s'|]|]; simpl; try done.
      by destruct (strptime s').
Qed.

(** ** The directory of a destination *)

Lemma unique_target_parent w path :
  parent (unique_target w path) = parent path.
Proof.
  destruct (unique_target_spec w path) as [[_ ->]|[_ (k & -> & _)]]; [done|].
  apply candidate_parent.
Qed.

Lemma new_name_nonempty pattern base ext : new_name pattern base ext ≠ [].
Proof.
  unfold new_name. pose proof (sanitize_nonempty base) as H.
  destruct (contains (u "{ext") pattern); [done|].
  by destruct (sanitize_filename base).
Qed.

(** X14. A file stays in its directory: the destination recorded for a
    file has the parent of the file, unless the target name is a single
    dot.  That name is no name: the target is then the directory of the
    file itself, and the destination is what [unique_target] makes of
    that directory. *)
Theorem destination_stays_in_the_directory_of_the_file
    (a : Args) (pattern : str) (st : State) (p : Path)
    (mapping : gmap str Value) (ext base : str)
    (Hfmt : format_map resolve format_obj pattern mapping = Ok base) :
  ∃ st' target,
    plan_file resolve format_obj a pattern st p mapping ext = Next st'
    ∧ ops st' = ops st ++ [(p, target)]
    ∧ (new_name pattern base ext ≠ [dot] → parent target = parent p)
    ∧ (new_name pattern base ext = [dot] →
       target = unique_target (world st) (parent p)).
Proof.
  destruct (plan_file_destination resolve format_obj a pattern st p mapping
              ext base Hfmt) as (st' & Hplan & Hops).
  exists st'. eexists. split; [exact Hplan|]. split; [exact Hops|].
  split.
  - intros Hdot. rewrite unique_target_parent. unfold joinpath.
    rewrite bool_decide_eq_false_2.
    + unfold parent. simpl. by rewrite removelast_last.
    + intros [H|H]; [by apply new_name_nonempty in H|done].
  - intros ->. unfold joinpath. by rewrite bool_decide_eq_true_2 by (by right).
Qed.

End EngineFacts.

(** ** The zero padding of the counter *)

Lemma is_prefix_no_brace x repl r :
  Forall (fun c => c ≠ brace_l) x →
  is_prefix [brace_l] repl = true →
  is_prefix x (sub_counter repl 0 r) = true → is_prefix x r = true.
Proof.
  intros Hx Hrepl. revert r. induction Hx as [|c x Hc Hx IH]; intros r; [done|].
  destruct r as [|b r]; [done|].
  rewrite sub_counter_cons.
  destruct (is_prefix counter_field (b :: r)).
  - destruct repl as [|b' repl]; [done|]. cbn [is_prefix] in Hrepl.
    apply andb_prop in Hrepl as [Hb _]. apply N.eqb_eq in Hb as <-.
    cbn [app is_prefix]. apply N.eqb_neq in Hc. by rewrite Hc.
  - cbn [is_prefix]. intros [-> H]%andb_prop. cbn [andb]. by apply IH.
Qed.

Lemma contains_counter_skip x y :
  Forall (fun c => c ≠ brace_l) x →
  contains counter_field (x ++ y) = contains counter_field y.
Proof.
  induction 1 as [|c x Hc Hx IH]; [done|].
  change (contains counter_field ((c :: x) ++ y))
    with (is_prefix (brace_l :: u "counter}") (c :: x ++ y)
          || contains counter_field (x ++ y)).
  cbn [is_prefix]. rewrite IH.
  assert ((brace_l =? c) = false) as -> by (apply N.eqb_neq; congruence).
  done.
Qed.

Lemma sub_counter_complete tl s :
  Forall (fun c => c ≠ brace_l) tl →
  (∀ y, is_prefix counter_field (brace_l :: tl ++ y) = false) →
  contains counter_field (sub_counter (brace_l :: tl) 0 s) = false.
Proof.
  intros Htl Hhead.
  remember (length s) as n eqn:Hn. revert s Hn.
  induction n as [n IH] using lt_wf_ind. intros s Hn.
  destruct s as [|c r]; [done|].
  rewrite sub_counter_cons.
  destruct (is_prefix counter_field (c :: r)) eqn:Hpre.
  - change ((brace_l :: tl) ++ sub_counter (brace_l :: tl) 0 (drop 8 r))
      with (brace_l :: tl ++ sub_counter (brace_l :: tl) 0 (drop 8 r)).
    change (contains counter_field
              (brace_l :: tl ++ sub_counter (brace_l :: tl) 0 (drop 8 r)))
      with (is_prefix counter_field
              (brace_l :: tl ++ sub_counter (brace_l :: tl) 0 (drop 8 r))
            || contains counter_field
                 (tl ++ sub_counter (brace_l :: tl) 0 (drop 8 r))).
    rewrite Hhead, contains_counter_skip by done. simpl.
    apply (IH (length (drop 8 r))); [|done].
    rewrite Hn, length_drop. simpl. lia.
  - change (contains counter_field (c :: sub_counter (brace_l :: tl) 0 r))
      with (is_prefix counter_field (c :: sub_counter (brace_l :: tl) 0 r)
            || contains counter_field (sub_counter (brace_l :: tl) 0 r)).
    rewrite (IH (length r)) by (rewrite ?Hn; simpl; done || lia).
    rewrite orb_false_r.
    destruct (is_prefix counter_field (c :: sub_counter (brace_l :: tl) 0 r))
      eqn:E; [|done].
    exfalso.
    change counter_field with (brace_l :: u "counter}") in *.
    cbn [is_prefix] in E, Hpre.
    apply andb_prop in E as [E1 E2]. rewrite E1 in Hpre. cbn [andb] in Hpre.
    apply (is_prefix_no_brace (u "counter}") (brace_l :: tl)) in E2.
    + congruence.
    + repeat constructor; discriminate.
    + cbn [is_prefix]. by rewrite N.eqb_refl.
Qed.

(** X15. With [--digits], the rewrite of the pattern leaves no bare
    [{counter}] behind: every occurrence is replaced, and the text written
    in its place makes no new one.  (A pattern without the field is left
    as it is.) *)
Theorem padding_leaves_no_bare_counter (a : Args)
    (Hdigits : arg_digits a ≠ 0%Z) :
  contains counter_field (effective_pattern a) = false.
Proof.
  unfold effective_pattern.
  assert ((arg_digits a =? 0)%Z = false) as -> by (by apply Z.eqb_neq).
  simpl. destruct (contains counter_field (arg_pattern a)) eqn:E; [|done].
  change (u "{counter:0" ++ str_of_Z (arg_digits a) ++ u "d}")
    with (brace_l :: u "counter:0" ++ str_of_Z (arg_digits a) ++ u "d}").
  apply (sub_counter_complete
           (u "counter:0" ++ str_of_Z (arg_digits a) ++ u "d}")).
  - rewrite !Forall_app.
    split; [repeat constructor; discriminate|].
    split; [|repeat constructor; discriminate].
    eapply Forall_impl; [apply str_of_Z_chars|].
    intros c [Hc| ->]; [|discriminate].
    intros ->. discriminate.
  - intros y. reflexivity.
Qed.

(** * Closed runs of the enumeration and of the two modes *)

Module SampleEnumerate.

(** [str.lower] on ASCII text. *)
Definition lower (s : str) : str :=
  (fun c => if (65 <=? c) && (c <=? 90) then c + 32 else c) <$> s.

(** A file system that keeps no creation times apart. *)
Definition st_ctime (p : Path) : Z := 0%Z.

Definition notes : Path := Sample.rel ["notes"%string].
Definition c_jpg : Path := Sample.rel ["c.jpg"%string].

(** Two pictures and a file without extension. *)
Definition three_files : list (Path * Node) :=
  [(b_jpg, Sample.file 2); (notes, Sample.file 3); (a_jpg, Sample.file 1)].

Definition select (ext : string) (sort_by : SortBy) : Selection :=
  mkSelection (u ext) false sort_by.

End SampleEnumerate.



Lemma blank_extension_list_selects_every_file_witness :
  let w := Sample.world_of SampleEnumerate.three_files in
  let ext := u " , ," in
  Forall (fun piece => strip piece = []) (split_on comma ext)
  ∧ (SampleEnumerate.notes
       ∈ get_files SampleEnumerate.lower w (Sample.rel [])
           (parse_exts SampleEnumerate.lower ext) false
     ↔ matches false (Sample.rel []) SampleEnumerate.notes
       ∧ is_file w SampleEnumerate.notes = true).
Proof.
  intros w ext.
  assert (Forall (fun piece => strip piece = []) (split_on comma ext))
    as Hblank by decide_by_computation.
  split; [exact Hblank|].
  exact (blank_extension_list_selects_every_file SampleEnumerate.lower ext w
           (Sample.rel []) false SampleEnumerate.notes Hblank).
Defined.

Lemma filter_skips_files_without_extension_witness :
  let w := Sample.world_of SampleEnumerate.three_files in
  let ext := u "jpg, png" in
  (∀ x, SampleEnumerate.lower x = [] ↔ x = [])
  ∧ parse_exts SampleEnumerate.lower ext ≠ ∅
  ∧ suffix SampleEnumerate.notes = []
  ∧ SampleEnumerate.notes
      ∉ get_files SampleEnumerate.lower w (Sample.rel [])
          (parse_exts SampleEnumerate.lower ext) false.
Proof.
  intros w ext.
  assert (∀ x, SampleEnumerate.lower x = [] ↔ x = []) as Hlower.
  { intros [|c x]; split; intros H; done. }
  assert (parse_exts SampleEnumerate.lower ext ≠ ∅) as Hfilter.
  { intros H. assert (u "jpg" ∈ parse_exts SampleEnumerate.lower ext) as Hin.
    { apply parse_exts_elem. exists (u "jpg").
      split; [vm_compute; by left|]. split; [vm_compute; discriminate|].
      vm_compute. reflexivity. }
    rewrite H in Hin. by apply not_elem_of_empty in Hin. }
  split; [exact Hlower|]. split; [exact Hfilter|]. split; [reflexivity|].
  exact (filter_skips_files_without_extension SampleEnumerate.lower ext w
           (Sample.rel []) false SampleEnumerate.notes Hlower Hfilter eq_refl).
Defined.

Lemma rename_run_leaves_other_files_alone_witness :
  let w := Sample.world_of SampleEnumerate.three_files in
  let a := args "img_{counter}" 1 true in
  arg_undo a = None
  ∧ nodes w !! SampleEnumerate.notes = Some (Sample.file 3)
  ∧ (SampleEnumerate.notes ∉ [a_jpg; b_jpg])
  ∧ SampleEnumerate.notes ≠ map_file_of a
  ∧ nodes (sample_main a [a_jpg; b_jpg] w).1.2 !! SampleEnumerate.notes
    = Some (Sample.file 3).
Proof.
  intros w a.
  assert (nodes w !! SampleEnumerate.notes = Some (Sample.file 3)) as Hq
    by (vm_compute; reflexivity).
  assert (SampleEnumerate.notes ∉ [a_jpg; b_jpg]) as Hother
    by decide_by_computation.
  assert (SampleEnumerate.notes ≠ map_file_of a) as Hmap
    by decide_by_computation.
  split; [reflexivity|]. split; [exact Hq|]. split; [exact Hother|].
  split; [exact Hmap|].
  exact (rename_run_leaves_other_files_alone SampleRun.strptime
           SampleRender.resolve SampleRender.format_obj
           a [a_jpg; b_jpg] w SampleEnumerate.notes (Sample.file 3)
           eq_refl Hq Hother Hmap).
Defined.


Lemma undo_after_apply_restores_the_files_witness :
  let w := Sample.world_of SampleEnumerate.three_files in
  let a := args "img_{counter}" 1 true in
  let files := [a_jpg; b_jpg] in
  let r := sample_run_rename a files w in
  let back := run_undo (with_undo a map_json) (map_file_of a) (world r.2) in
  arg_apply a = true
  ∧ enumerated w files
  ∧ (∀ s d, rename_refused w s d = false)
  ∧ write_refused w (map_file_of a) = false
  ∧ r = (Returned, r.2)
  ∧ (map_file_of a ∉ files)
  ∧ (∀ t, t ∈ (ops r.2).*2 → (t ∉ files) ∧ t ≠ map_file_of a)
  ∧ (ops r.2).*2 = [Sample.rel ["img_1.jpg"%string];
                    Sample.rel ["img_2.jpg"%string]]
  ∧ back.1 = Exited 0
  ∧ nodes (undo_world back.2)
    = <[map_file_of a := mkNode false 0 NotAnImage (Some (ops r.2))]> (nodes w)
  ∧ reversed_ops back.2 = (fun op => (op.2, op.1)) <$> ops r.2.
Proof.
  intros w a files r back.
  assert (enumerated w files) as Henum by enumerated_by_computation.
  assert (r = (Returned, r.2)) as Hrun.
  { assert (r.1 = Returned) as H1 by (vm_compute; reflexivity).
    rewrite (surjective_pairing r) at 1. by rewrite H1. }
  assert (map_file_of a ∉ files) as Hmapf by decide_by_computation.
  assert ((ops r.2).*2 = [Sample.rel ["img_1.jpg"%string];
                          Sample.rel ["img_2.jpg"%string]]) as Hops
    by (vm_compute; reflexivity).
  assert (∀ t, t ∈ (ops r.2).*2 → (t ∉ files) ∧ t ≠ map_file_of a) as Hdst.
  { intros t Ht. rewrite Hops in Ht.
    repeat (apply elem_of_cons in Ht as [->|Ht];
            [split; decide_by_computation|]).
    apply elem_of_nil in Ht. destruct Ht. }
  split; [reflexivity|]. split; [exact Henum|].
  split; [intros s d; reflexivity|]. split; [reflexivity|].
  split; [exact Hrun|]. split; [exact Hmapf|]. split; [exact Hdst|].
  split; [exact Hops|].
  exact (undo_after_apply_restores_the_files SampleRun.strptime
           SampleRender.resolve SampleRender.format_obj
           a (with_undo a map_json) files w r.2 eq_refl Henum
           (fun s d => eq_refl) eq_refl Hrun Hmapf Hdst).
Defined.


(** [str] indexing by one decimal digit, which a field like [{orig[2]}]
    asks for; an index out of range raises. *)
Definition resolve_index (v : Value) (acc : str) (conv : N) : result Value :=
  match v, acc, conv with
  | _, [], 0 => Ok v
  | VStr s, [91; d; 93], 0 =>
      if is_digit d then
        match s !! N.to_nat (d - 48) with
        | Some c => Ok (VStr [c])
        | None => Raise OtherError
        end
      else Raise OtherError
  | _, _, _ => Raise OtherError
  end.


(** A picture with both date tags, of which only [DateTime] is readable,
    and one whose [DateTimeOriginal] is. *)
Definition both_tags (original : string) : gmap N ExifVal :=
  {[ Pillow.DateTimeOriginal := EStr (u original);
     Pillow.DateTime := EStr (u "2023:05:01 12:00:00") ]}.

Lemma exif_original_date_comes_first_witness :
  let tags := both_tags "yesterday" in
  let nd := mkNode false 8 (Exif (Some tags)) None in
  let w := mkWorld (list_to_map [(a_jpg, nd)]) (fun _ _ => false)
                   (fun _ => false) true in
  PIL_AVAILABLE w = true
  ∧ nodes w !! a_jpg = Some nd
  ∧ image nd = Exif (Some tags)
  ∧ tag_date SampleRun.strptime tags Pillow.DateTimeOriginal = None
  ∧ tag_date SampleRun.strptime tags Pillow.DateTime
    = Some (Datetime 1682942400)
  ∧ get_exif_datetime SampleRun.strptime w a_jpg
    = Ok (match tag_date SampleRun.strptime tags Pillow.DateTimeOriginal with
          | Some d => Some d
          | None => tag_date SampleRun.strptime tags Pillow.DateTime
          end).
Proof.
  intros tags nd w.
  assert (nodes w !! a_jpg = Some nd) as Hnd by (vm_compute; reflexivity).
  split; [reflexivity|]. split; [exact Hnd|]. split; [reflexivity|].
  split; [vm_compute; reflexivity|]. split; [vm_compute; reflexivity|].
  exact (exif_original_date_comes_first SampleRun.strptime w a_jpg nd tags
           eq_refl Hnd eq_refl).
Defined.

Lemma destination_stays_in_the_directory_of_the_file_witness :
  let p := Sample.rel ["d"%string; "a.jpg"%string] in
  let w := Sample.world_of [(p, Sample.file 1)] in
  let a := args "img" 1 false in
  let st := mkState w 1 [] [] in
  SampleRender.format_map (u "img") ∅ = Ok (u "img")
  ∧ new_name (u "img") (u "img") (u "jpg") = u "img.jpg"
  ∧ ∃ st' target,
      plan_file SampleRender.resolve SampleRender.format_obj a (u "img") st p
        ∅ (u "jpg") = Next st'
      ∧ ops st' = ops st ++ [(p, target)]
      ∧ (new_name (u "img") (u "img") (u "jpg") ≠ [dot]
         → parent target = parent p)
      ∧ (new_name (u "img") (u "img") (u "jpg") = [dot]
         → target = unique_target (world st) (parent p)).
Proof.
  intros p w a st.
  assert (SampleRender.format_map (u "img") ∅ = Ok (u "img")) as Hfmt
    by (vm_compute; reflexivity).
  split; [exact Hfmt|]. split; [vm_compute; reflexivity|].
  exact (destination_stays_in_the_directory_of_the_file
           SampleRender.resolve SampleRender.format_obj a (u "img") st p
           ∅ (u "jpg") (u "img") Hfmt).
Defined.

Lemma padding_leaves_no_bare_counter_witness :
  let a := with_exif_digits (args "{counter}_{orig}_{counter}" 1 false) 3 in
  arg_digits a ≠ 0%Z
  ∧ effective_pattern a = u "{counter:03d}_{orig}_{counter:03d}"
  ∧ contains counter_field (effective_pattern a) = false.
Proof.
  intros a.
  assert (arg_digits a ≠ 0%Z) as Hdigits by discriminate.
  split; [exact Hdigits|]. split; [vm_compute; reflexivity|].
  exact (padding_leaves_no_bare_counter a Hdigits).
Defined.
